(** * Gap expansion for stacked series: the revisions of
      [stackedSeriesGapFix.js], embedded and verified.

    The development follows the source files:
    - [V110]: version 1.1.0 (walk to the nearest boundary, duplicate guard,
      gaps keyed by index across all series);
    - [V100]: version 1.0.0 (immediate neighbours, fix distance 1);
    - [Single]: the first, single-series revision (walk to the nearest
      point that is not null, fixes applied in the order found);
    - [Single2]: the single-series revision with immediate neighbours
      (fixes applied last one first).

    Conventions of the embedding.
    - JavaScript numbers are modelled by [Z]: timestamps and values are taken
      to be integers.  The functions of the four modules add and subtract in
      [Z], which is what JavaScript computes as long as the sums stay within
      [2^53].  [double] rounds an integer to the nearest double, and
      [V110.Float] and [Single2.Float] are the rewrite passes with every sum
      rounded, as JavaScript computes it at any magnitude.  They agree with
      the exact passes on every input in the [safe] range
      ([fixSeries_exact], [fixSeries2_exact]); the properties on the order
      of the [x] values are stated for them.
    - An input is an array of series objects, each with a [data] array of
      point objects whose [x] is a number and whose [y] is a number or
      [null].  Inputs that lack one of these are not modelled.
    - [null] is [None] in the [y] field; an absent property ([undefined]) is
      [None] in the [type], [marker] and [id] fields.
    - The caller's array of series is the store.  Series objects, data arrays
      and point objects are assumed pairwise distinct (no aliasing), so the
      store is a list of records and an in-place update is a functional
      update of that list.
    - Reading a property of [undefined] raises a TypeError; a result carries
      the store as it is when the function returns or throws. *)

From Stdlib Require Import ZArith Lia List Sorted.
From stdpp Require Import base list strings.

Local Open Scope Z_scope.

(** ** Data model *)

(** The [marker] object attached to synthetic points:
    [{enabled: false, states: {hover: {enabled: false}}}]. *)
Record Marker := mkMarker {
  enabled : bool;
  hover_enabled : bool
}.

Record Point := mkPoint {
  x : Z;
  y : option Z;
  type : option string;
  marker : option Marker
}.

(** A series id is whatever the caller supplied, or a position. *)
Inductive Id :=
| IdNum (n : Z)
| IdStr (s : string).

Record Series := mkSeries {
  id : option Id;
  data : list Point
}.

(** What a call leaves behind: the store after a normal return, or the store
    at the moment a TypeError is thrown. *)
Inductive result (S : Type) :=
| Done (s : S)
| TypeError (s : S).
Arguments Done {S} s.
Arguments TypeError {S} s.

Definition store_of {S : Type} (r : result S) : S :=
  match r with Done s => s | TypeError s => s end.

Definition is_type (t : string) (p : Point) : bool :=
  match type p with
  | Some t' => String.eqb t' t
  | None => false
  end.

Definition is_null (p : Point) : bool :=
  match y p with None => true | Some _ => false end.

Definition setType (t : string) (p : Point) : Point :=
  {| x := x p; y := y p; type := Some t; marker := marker p |}.

Definition setData (s : Series) (d : list Point) : Series :=
  {| id := id s; data := d |}.

(** [data.splice(index, 0, item)] for [0 <= index]: the item goes in front of
    position [index], or at the end when [index] is past it. *)
Definition splice {A : Type} (l : list A) (index : nat) (item : A) : list A :=
  take index l ++ item :: drop index l.

(** [x] values of a point sequence, and strict growth of such a sequence. *)
Definition xs (l : list Point) : list Z := map x l.

Fixpoint increasing (l : list Z) : Prop :=
  match l with
  | a :: (b :: _) as t => a < b /\ increasing t
  | _ => True
  end.

(** Consecutive points are more than [delta] apart in [x]. *)
Fixpoint spaced (delta : Z) (l : list Point) : Prop :=
  match l with
  | a :: (b :: _) as t => x a + delta < x b /\ spaced delta t
  | _ => True
  end.

(** The double nearest to the integer [z], ties going to the even
    significand: what JavaScript stores for the exact result [z] of a sum or
    a difference (below [2^1024], where it would store [Infinity]).  Up to
    [2^53] in absolute value every integer is a double; above, [u] is the
    distance of two neighbouring doubles around [z]. *)
Definition double (z : Z) : Z :=
  let a := Z.abs z in
  if a <=? 2 ^ 53 then z
  else
    let u := 2 ^ (Z.log2 a - 52) in
    let q := a / u in
    let r := a mod u in
    let q' :=
      if 2 * r <? u then q
      else if u <? 2 * r then q + 1
      else if Z.even q then q else q + 1 in
    Z.sgn z * (q' * u).

(** The sums [p.x + delta] and [p.x - delta] stay within [2^53], so
    JavaScript computes them exactly. *)
Definition safe (delta : Z) (p : Point) : Prop :=
  Z.abs (x p) + Z.abs delta <= 2 ^ 53.

(** A point of an array under rewriting: a synthetic point, or a point whose
    sums are exact and which carries the tag of the scan if it is null. *)
Definition fix_or_safe (delta : Z) (p : Point) : Prop :=
  is_type "gapfix" p = true
  \/ (safe delta p /\ (is_null p = true -> is_type "gap" p = true)).

(** ** Version 1.1.0 *)

Module V110.

(** [var fixTimeDistance = 1000] *)
Definition fixTimeDistance : Z := 1000.

(** The boundary a walk returns: [{x: p.x, y: p.y}] with [p.y] not null. *)
Record Boundary := mkBoundary {
  bx : Z;
  by_ : Z
}.

(** A collected gap: [{ids, index, x, y}]. *)
Record Gap := mkGap {
  ids : list Id;
  index : nat;
  gap_x : Z;
  gap_y : option Z
}.

(** [getPrev(data, index)], for an [index >= 0] (it is always a position
    recorded by the scan).  The loop decrements before it reads, so with
    [index = 0] it reads [data[-1]], which is [undefined], and
    [prev.type] throws: [inl tt] stands for that TypeError. *)
Fixpoint getPrev (data : list Point) (index : nat) : unit + option Boundary :=
  match index with
  | O => inl tt
  | S index' =>
      match data !! index' with
      | None => inl tt
      | Some prev =>
          if is_type "gap" prev then inr None
          else match y prev with
               | Some v => inr (Some (mkBoundary (x prev) v))
               | None => getPrev data index'
               end
      end
  end.

(** The loop of [getNext]: the points still ahead are [data[index+1 ..]];
    the guard [index < data.length - 1] keeps every read inside the array. *)
Fixpoint getNext_from (ahead : list Point) : option Boundary :=
  match ahead with
  | [] => None
  | next :: ahead' =>
      if is_type "gap" next then None
      else match y next with
           | Some v => Some (mkBoundary (x next) v)
           | None => getNext_from ahead'
           end
  end.

Definition getNext (data : list Point) (index : nat) : option Boundary :=
  getNext_from (drop (S index) data).

Definition createGapFixPoint (px : Z) (py : option Z) : Point :=
  {| x := px; y := py; type := Some "gapfix";
     marker := Some (mkMarker false false) |}.

(** [sortByIndex(a, b)]: -1, 0 or 1. *)
Definition sortByIndex (a b : Gap) : Z :=
  if (index a <? index b)%nat then -1
  else if (index b <? index a)%nat then 1 else 0.

(** [insertGapFix(data, index, gapfix)]: reads [data[index].type] first. *)
Definition insertGapFix (data : list Point) (index : nat) (gapfix : Point)
  : result (list Point) :=
  match data !! index with
  | None => TypeError data
  | Some p =>
      if is_type "gapfix" p then Done data
      else Done (splice data index gapfix)
  end.

(** [gapIds.indexOf(iData)] *)
Fixpoint indexOf (l : list nat) (v : nat) : option nat :=
  match l with
  | [] => None
  | a :: l' => if (a =? v)%nat then Some O else S <$> indexOf l' v
  end.

Definition pushId (seriesId : Id) (g : Gap) : Gap :=
  {| ids := ids g ++ [seriesId]; index := index g;
     gap_x := gap_x g; gap_y := gap_y g |}.

(** The two arrays the scan fills: [gaps] and [gapIds]. *)
Definition Collected : Type := list Gap * list nat.

(** Body of the inner scan loop at position [iData]. *)
Definition collectGap (seriesId : Id) (iData : nat) (p : Point)
  (c : Collected) : Collected :=
  let '(gaps, gapIds) := c in
  match indexOf gapIds iData with
  | None => (gaps ++ [mkGap [seriesId] iData (x p) (y p)], gapIds ++ [iData])
  | Some gapIndex => (alter (pushId seriesId) gapIndex gaps, gapIds)
  end.

(** The inner scan loop over [data[iData ..]]: tags every null point as
    ['gap'] and records it. *)
Fixpoint scanData (seriesId : Id) (iData : nat) (rest : list Point)
  (c : Collected) : list Point * Collected :=
  match rest with
  | [] => ([], c)
  | p :: rest' =>
      if is_null p then
        let '(out, c') := scanData seriesId (S iData) rest'
                            (collectGap seriesId iData p c) in
        (setType "gap" p :: out, c')
      else
        let '(out, c') := scanData seriesId (S iData) rest' c in
        (p :: out, c')
  end.

(** [typeof series[iSeries].id !== 'undefined' ? series[iSeries].id
    : iSeries] *)
Definition assignId (iSeries : nat) (s : Series) : Id :=
  match id s with
  | Some i => i
  | None => IdNum (Z.of_nat iSeries)
  end.

(** The outer scan loop over [series[iSeries ..]]. *)
Fixpoint scanSeries (iSeries : nat) (rest : list Series) (c : Collected)
  : list Series * Collected :=
  match rest with
  | [] => ([], c)
  | s :: rest' =>
      let sid := assignId iSeries s in
      let '(d, c1) := scanData sid O (data s) c in
      let '(out, c2) := scanSeries (S iSeries) rest' c1 in
      ({| id := Some sid; data := d |} :: out, c2)
  end.

(** [gaps.sort(sortByIndex)]: the scan records every index once, so any
    sorting procedure yields the same array; insertion sort is used here. *)
Fixpoint insertSorted (g : Gap) (l : list Gap) : list Gap :=
  match l with
  | [] => [g]
  | h :: t => if sortByIndex g h <=? 0 then g :: l else h :: insertSorted g t
  end.

Fixpoint sortGaps (l : list Gap) : list Gap :=
  match l with
  | [] => []
  | g :: t => insertSorted g (sortGaps t)
  end.

Section Distance.

(** The fix distance.  The source keeps it in the variable
    [fixTimeDistance]; the functions below take it as the parameter [delta],
    so that a property can be stated for any distance.  The function of the
    source is [fixSeries fixTimeDistance]. *)
Variable delta : Z.

(** Body of the rewrite loop for one gap and one data array. *)
Definition fixGap (gapIndex : nat) (data : list Point) : result (list Point) :=
  match getPrev data gapIndex with
  | inl _ => TypeError data
  | inr prev =>
      let next := getNext data gapIndex in
      match data !! gapIndex with
      | None => TypeError data
      | Some p =>
          let isGap := is_null p in
          let afterNext :=
            match next with
            | Some n =>
                let nextValue := if isGap then None else Some (by_ n) in
                insertGapFix data (S gapIndex)
                  (createGapFixPoint (bx n - delta) nextValue)
            | None => Done data
            end in
          match afterNext with
          | TypeError d => TypeError d
          | Done d =>
              match prev with
              | Some pv =>
                  let prevValue := if isGap then None else Some (by_ pv) in
                  insertGapFix d gapIndex
                    (createGapFixPoint (bx pv + delta) prevValue)
              | None => Done d
              end
          end
      end
  end.

(** The rewrite loop over the sorted gaps, for one data array. *)
Fixpoint fixGaps (gaps : list Gap) (data : list Point) : result (list Point) :=
  match gaps with
  | [] => Done data
  | gap :: gaps' =>
      match fixGap (index gap) data with
      | Done d => fixGaps gaps' d
      | TypeError d => TypeError d
      end
  end.

(** The rewrite loop over the series. *)
Fixpoint fixAll (gaps : list Gap) (rest : list Series) : result (list Series) :=
  match rest with
  | [] => Done []
  | s :: rest' =>
      match fixGaps gaps (data s) with
      | TypeError d => TypeError (setData s d :: rest')
      | Done d =>
          match fixAll gaps rest' with
          | Done out => Done (setData s d :: out)
          | TypeError out => TypeError (setData s d :: out)
          end
      end
  end.

(** The scan pass on its own: the store it leaves and the gaps, sorted
    descending by index. *)
Definition scan (series : list Series) : list Series * list Gap :=
  let '(series', (gaps, _)) := scanSeries O series ([], []) in
  (series', rev (sortGaps gaps)).

Definition fixSeries (series : list Series) : result (list Series) :=
  let '(series', gaps) := scan series in
  fixAll gaps series'.

End Distance.

(** The rewrite pass with the sums as JavaScript computes them:
    [next.x - fixTimeDistance] and [prev.x + fixTimeDistance] are rounded to
    doubles.  The scan and the walks do no arithmetic and are shared. *)
Module Float.

Section Distance.

Variable delta : Z.

Definition fixGap (gapIndex : nat) (data : list Point) : result (list Point) :=
  match getPrev data gapIndex with
  | inl _ => TypeError data
  | inr prev =>
      let next := getNext data gapIndex in
      match data !! gapIndex with
      | None => TypeError data
      | Some p =>
          let isGap := is_null p in
          let afterNext :=
            match next with
            | Some n =>
                let nextValue := if isGap then None else Some (by_ n) in
                insertGapFix data (S gapIndex)
                  (createGapFixPoint (double (bx n - delta)) nextValue)
            | None => Done data
            end in
          match afterNext with
          | TypeError d => TypeError d
          | Done d =>
              match prev with
              | Some pv =>
                  let prevValue := if isGap then None else Some (by_ pv) in
                  insertGapFix d gapIndex
                    (createGapFixPoint (double (bx pv + delta)) prevValue)
              | None => Done d
              end
          end
      end
  end.

Fixpoint fixGaps (gaps : list Gap) (data : list Point) : result (list Point) :=
  match gaps with
  | [] => Done data
  | gap :: gaps' =>
      match fixGap (index gap) data with
      | Done d => fixGaps gaps' d
      | TypeError d => TypeError d
      end
  end.

Fixpoint fixAll (gaps : list Gap) (rest : list Series) : result (list Series) :=
  match rest with
  | [] => Done []
  | s :: rest' =>
      match fixGaps gaps (data s) with
      | TypeError d => TypeError (setData s d :: rest')
      | Done d =>
          match fixAll gaps rest' with
          | Done out => Done (setData s d :: out)
          | TypeError out => TypeError (setData s d :: out)
          end
      end
  end.

Definition fixSeries (series : list Series) : result (list Series) :=
  let '(series', gaps) := scan series in
  fixAll gaps series'.

End Distance.

End Float.

End V110.

(** ** Version 1.0.0 *)

Module V100.

(** [{x: data[i].x, y: data[i].y, i: i}] *)
Record Neighbour := mkNeighbour {
  nx : Z;
  ny : option Z;
  ni : nat
}.

(** A recorded fix: [{id, index, x, xPrev, xNext, y: null}];
    [prev && prev.x] is [null] when there is no neighbour. *)
Record Fix := mkFix {
  fix_id : Id;
  fix_index : nat;
  fix_x : Z;
  xPrev : option Z;
  xNext : option Z;
  fix_y : option Z
}.

(** [getPrev(data, index)]: [data[index - 1]] if there is one
    ([data[-1]] is [undefined]). *)
Definition getPrev (data : list Point) (index : nat) : option Neighbour :=
  match index with
  | O => None
  | S i =>
      match data !! i with
      | Some p => Some (mkNeighbour (x p) (y p) i)
      | None => None
      end
  end.

Definition getNext (data : list Point) (index : nat) : option Neighbour :=
  let i := S index in
  match data !! i with
  | Some p => Some (mkNeighbour (x p) (y p) i)
  | None => None
  end.

Definition createGapPoint (px : Z) (py : option Z) : Point :=
  {| x := px; y := py; type := Some "gap";
     marker := Some (mkMarker false false) |}.

(** Truthiness of [fix.xPrev] and [fix.xNext]: [null] and [0] are falsy. *)
Definition truthy (v : option Z) : bool :=
  match v with
  | Some n => negb (n =? 0)
  | None => false
  end.

(** The collecting loop over [data[iData ..]] ([rest] is that suffix).  After
    a null point with a next neighbour the counter is set to [next.i], so the
    loop resumes two positions further. *)
Fixpoint collectFixes (data : list Point) (seriesId : Id) (iData : nat)
  (rest : list Point) : list Fix :=
  match rest with
  | [] => []
  | p :: rest' =>
      if is_null p then
        let prev := getPrev data iData in
        let next := getNext data iData in
        mkFix seriesId iData (x p) (nx <$> prev) (nx <$> next) None ::
          match next, rest' with
          | Some n, _ :: rest'' => collectFixes data seriesId (S (ni n)) rest''
          | _, _ => collectFixes data seriesId (S iData) rest'
          end
      else collectFixes data seriesId (S iData) rest'
  end.

Definition assignId (iSeries : nat) (s : Series) : Id :=
  match id s with
  | Some i => i
  | None => IdNum (Z.of_nat iSeries)
  end.

Fixpoint scanSeries (iSeries : nat) (rest : list Series)
  : list Series * list Fix :=
  match rest with
  | [] => ([], [])
  | s :: rest' =>
      let sid := assignId iSeries s in
      let '(out, fixes) := scanSeries (S iSeries) rest' in
      ({| id := Some sid; data := data s |} :: out,
       collectFixes (data s) sid O (data s) ++ fixes)
  end.

Definition id_eqb (a b : Id) : bool :=
  match a, b with
  | IdNum n, IdNum m => n =? m
  | IdStr s, IdStr t => String.eqb s t
  | _, _ => false
  end.

(** [v && v.y !== null && v.x === bound ? v.y : fix.y] *)
Definition serieValue (v : option Point) (bound : option Z) (fy : option Z)
  : option Z :=
  match v with
  | Some p =>
      match y p, bound with
      | Some vy, Some b => if x p =? b then Some vy else fy
      | _, _ => fy
      end
  | None => fy
  end.

(** Body of the insertion loop for one fix and one series. *)
Definition applyFix (sid : option Id) (f : Fix) (data : list Point)
  : list Point :=
  let other :=
    match sid with
    | Some i => negb (id_eqb (fix_id f) i)
    | None => true
    end in
  let seriePrevValue :=
    match fix_index f with O => None | S i => data !! i end in
  let seriePostValue := data !! S (fix_index f) in
  let prevGapValue :=
    if other then serieValue seriePrevValue (xPrev f) (fix_y f)
    else fix_y f in
  let postGapValue :=
    if other then serieValue seriePostValue (xNext f) (fix_y f)
    else fix_y f in
  let d1 :=
    match xNext f with
    | Some n =>
        if truthy (xNext f)
        then splice data (S (fix_index f)) (createGapPoint (n - 1) postGapValue)
        else data
    | None => data
    end in
  match xPrev f with
  | Some n =>
      if truthy (xPrev f)
      then splice d1 (fix_index f) (createGapPoint (n + 1) prevGapValue)
      else d1
  | None => d1
  end.

Definition fixData (sid : option Id) (fixPoints : list Fix)
  (data : list Point) : list Point :=
  fold_left (fun d f => applyFix sid f d) fixPoints data.

Definition fixSeries (series : list Series) : list Series :=
  let '(series', fixPoints) := scanSeries O series in
  let fixPoints := rev fixPoints in
  map (fun s => setData s (fixData (id s) fixPoints (data s))) series'.

End V100.

(** ** The single-series revision *)

Module Single.

(** [{x: data[index].x, i: index}] *)
Record Found := mkFound {
  fx : Z;
  fi : nat
}.

Record Fix := mkFix {
  fix_index : nat;
  fix_x : Z;
  xPre : option Z;
  xPost : option Z;
  fix_y : option Z
}.

(** [getPreFix(data, index)]: [while (--index >= 0)], nearest point below
    [index] whose value is not null.  [index] is a position of the array, so
    every read is inside it and the [None] branch of the lookup is never
    taken. *)
Fixpoint getPreFix (data : list Point) (index : nat) : option Found :=
  match index with
  | O => None
  | S i =>
      match data !! i with
      | Some p => if is_null p then getPreFix data i else Some (mkFound (x p) i)
      | None => None
      end
  end.

(** The loop of [getPostFix] over [data[index ..]]. *)
Fixpoint getPostFix_from (index : nat) (ahead : list Point) : option Found :=
  match ahead with
  | [] => None
  | p :: ahead' =>
      if is_null p then getPostFix_from (S index) ahead'
      else Some (mkFound (x p) index)
  end.

Definition getPostFix (data : list Point) (index : nat) : option Found :=
  getPostFix_from (S index) (drop (S index) data).

Definition createFixPoint (px : Z) (py : option Z) : Point :=
  {| x := px; y := py; type := Some "fix";
     marker := Some (mkMarker false false) |}.

Definition truthy (v : option Z) : bool :=
  match v with
  | Some n => negb (n =? 0)
  | None => false
  end.

(** The collecting loop [for (i = 0; i < len; i++)], whose counter jumps to
    [post.i] after a gap.  [None]: the fuel ran out. *)
Fixpoint collectFixes (fuel : nat) (data : list Point) (i : nat)
  (fix_ : list Fix) : option (list Fix) :=
  if (i <? length data)%nat then
    match fuel with
    | O => None
    | S fuel' =>
        match data !! i with
        | None => Some fix_
        | Some p =>
            if is_null p then
              let pre := getPreFix data i in
              let post := getPostFix data i in
              let fix' :=
                fix_ ++ [mkFix i (x p) (fx <$> pre) (fx <$> post) None] in
              match post with
              | Some po => collectFixes fuel' data (S (fi po)) fix'
              | None => collectFixes fuel' data (S i) fix'
              end
            else collectFixes fuel' data (S i) fix_
        end
    end
  else Some fix_.

(** Body of the insertion loop: the fixes are applied in the order found. *)
Definition applyFix (f : Fix) (data : list Point) : list Point :=
  let d1 :=
    match xPre f with
    | Some n =>
        if truthy (xPre f)
        then splice data (fix_index f) (createFixPoint (n + 1) (fix_y f))
        else data
    | None => data
    end in
  match xPost f with
  | Some n =>
      if truthy (xPost f)
      then splice d1 (S (S (fix_index f))) (createFixPoint (n - 1) (fix_y f))
      else d1
  | None => d1
  end.

(** [fixSeries(series)] takes one series object and rewrites its data. *)
Definition fixSeries (series : Series) : option Series :=
  match collectFixes (length (data series)) (data series) O [] with
  | None => None
  | Some fix_ =>
      Some (setData series
              (fold_left (fun d f => applyFix f d) fix_ (data series)))
  end.

End Single.

(** ** The single-series revision with immediate neighbours *)

Module Single2.

(** [{x: data[i].x, i: i}] *)
Record Found := mkFound {
  fx : Z;
  fi : nat
}.

Record Fix := mkFix {
  fix_index : nat;
  fix_x : Z;
  xPre : option Z;
  xPost : option Z;
  fix_y : option Z
}.

(** [getPreFix(data, index)]: [data[index - 1]] if there is one, whatever
    its value. *)
Definition getPreFix (data : list Point) (index : nat) : option Found :=
  match index with
  | O => None
  | S i =>
      match data !! i with
      | Some p => Some (mkFound (x p) i)
      | None => None
      end
  end.

Definition getPostFix (data : list Point) (index : nat) : option Found :=
  let i := S index in
  match data !! i with
  | Some p => Some (mkFound (x p) i)
  | None => None
  end.

Definition createFixPoint (px : Z) (py : option Z) : Point :=
  {| x := px; y := py; type := Some "fix";
     marker := Some (mkMarker false false) |}.

Definition truthy (v : option Z) : bool :=
  match v with
  | Some n => negb (n =? 0)
  | None => false
  end.

(** The collecting loop over [data[i ..]] ([rest] is that suffix).  After a
    null point with a point behind it the counter is set to [post.i], so the
    loop resumes two positions further. *)
Fixpoint collectFixes (data : list Point) (i : nat) (rest : list Point)
  : list Fix :=
  match rest with
  | [] => []
  | p :: rest' =>
      if is_null p then
        let pre := getPreFix data i in
        let post := getPostFix data i in
        mkFix i (x p) (fx <$> pre) (fx <$> post) None ::
          match post, rest' with
          | Some po, _ :: rest'' => collectFixes data (S (fi po)) rest''
          | _, _ => collectFixes data (S i) rest'
          end
      else collectFixes data (S i) rest'
  end.

(** Body of the insertion loop: behind the gap first, then in front. *)
Definition applyFix (f : Fix) (data : list Point) : list Point :=
  let d1 :=
    match xPost f with
    | Some n =>
        if truthy (xPost f)
        then splice data (S (fix_index f)) (createFixPoint (n - 1) (fix_y f))
        else data
    | None => data
    end in
  match xPre f with
  | Some n =>
      if truthy (xPre f)
      then splice d1 (fix_index f) (createFixPoint (n + 1) (fix_y f))
      else d1
  | None => d1
  end.

(** [fixSeries(series)]: the fixes are applied last one first. *)
Definition fixSeries (series : Series) : Series :=
  let fix_ := rev (collectFixes (data series) O (data series)) in
  setData series (fold_left (fun d f => applyFix f d) fix_ (data series)).

(** The insertion loop with the sums as JavaScript computes them:
    [fix.xPost - 1] and [fix.xPre + 1] are rounded to doubles. *)
Module Float.

Definition applyFix (f : Fix) (data : list Point) : list Point :=
  let d1 :=
    match xPost f with
    | Some n =>
        if truthy (xPost f)
        then splice data (S (fix_index f))
               (createFixPoint (double (n - 1)) (fix_y f))
        else data
    | None => data
    end in
  match xPre f with
  | Some n =>
      if truthy (xPre f)
      then splice d1 (fix_index f) (createFixPoint (double (n + 1)) (fix_y f))
      else d1
  | None => d1
  end.

Definition fixSeries (series : Series) : Series :=
  let fix_ := rev (collectFixes (data series) O (data series)) in
  setData series (fold_left (fun d f => applyFix f d) fix_ (data series)).

End Float.

End Single2.

(** ** What version 1.1.0 computes, position by position

    The rewrite loop of version 1.1.0 splices into the array it is walking.
    [expandFrom] describes the same array by one pass from the left: every
    original point is kept, preceded and followed by at most one fix point,
    and whether a fix point is there depends only on the point, its two
    neighbours and on which positions were recorded as gaps. *)

(** The effect of the scan on one point. *)
Definition tagGap (p : Point) : Point :=
  if is_null p then setType "gap" p else p.

(** Every null point carries the tag ['gap']. *)
Definition tagged (l : list Point) : Prop :=
  Forall (fun p => is_null p = true -> is_type "gap" p = true) l.

(** The value a walk takes from an adjacent point: none from a point tagged
    ['gap']. *)
Definition boundary (p : Point) : option Z :=
  if is_type "gap" p then None else y p.

(** Adding one position to a set of positions. *)
Definition add (g : nat) (G : nat -> bool) : nat -> bool :=
  fun i => (i =? g)%nat || G i.

Definition member (gaps : list V110.Gap) : nat -> bool :=
  fun i => existsb (fun g => (i =? V110.index g)%nat) gaps.

Fixpoint descending (l : list nat) : Prop :=
  match l with
  | a :: (b :: _) as t => (b < a)%nat /\ descending t
  | _ => True
  end.

Section Expand.

Variable delta : Z.

(** The fix point put between [a] and its successor [o] when the gap at [o]
    is rewritten: at [a.x + delta], unless [a] is no boundary or [o] is
    itself a fix point. *)
Definition fixBefore (a o : Point) : list Point :=
  match boundary a with
  | Some v =>
      if is_type "gapfix" o then []
      else [V110.createGapFixPoint (x a + delta)
              (if is_null o then None else Some v)]
  | None => []
  end.

(** The fix point put between [o] and its successor [n] when the gap at [o]
    is rewritten: at [n.x - delta]. *)
Definition fixAfter (o n : Point) : list Point :=
  match boundary n with
  | Some v =>
      if is_type "gapfix" n then []
      else [V110.createGapFixPoint (x n - delta)
              (if is_null o then None else Some v)]
  | None => []
  end.

(** What one round of the rewrite loop puts behind [o] when the array
    continues with [ahead]. *)
Definition fixBehind (o : Point) (ahead : list Point) : list Point :=
  match V110.getNext_from ahead, ahead with
  | Some n, t :: _ =>
      if is_type "gapfix" t then []
      else [V110.createGapFixPoint (V110.bx n - delta)
              (if is_null o then None else Some (V110.by_ n))]
  | _, _ => []
  end.

(** [G] tells which positions are gaps already rewritten. *)
Variable G : nat -> bool.

(** The fix point in front of [o], the point at position [k]. *)
Definition prevFix (k : nat) (prev : option Point) (o : Point) : list Point :=
  if G k then
    match prev with
    | Some a => fixBefore a o
    | None => []
    end
  else [].

(** The fix point behind [o], the point at position [k]; [rest] are the
    points after it.  None is placed when the next position already has a fix
    point in front of it. *)
Definition nextFix (k : nat) (o : Point) (rest : list Point) : list Point :=
  if G k then
    match rest with
    | [] => []
    | n :: _ =>
        match prevFix (S k) (Some o) n with
        | _ :: _ => []
        | [] => fixAfter o n
        end
    end
  else [].

Fixpoint expandFrom (k : nat) (prev : option Point) (l : list Point)
  : list Point :=
  match l with
  | [] => []
  | o :: rest =>
      prevFix k prev o ++
      o :: nextFix k o rest ++ expandFrom (S k) (Some o) rest
  end.

(** The whole array, from position 0. *)
Definition expand (l : list Point) : list Point := expandFrom O None l.

End Expand.

(** The point in front of the next position, after walking over [l]. *)
Definition last_or (prev : option Point) (l : list Point) : option Point :=
  match last l with
  | Some p => Some p
  | None => prev
  end.

(** [increasing], started from the point in front. *)
Definition increasing_after (prev : option Point) (l : list Z) : Prop :=
  match prev with
  | Some a => increasing (x a :: l)
  | None => increasing l
  end.

(** Gaps still to rewrite all lie below the positions rewritten so far. *)
Definition below (gaps : list V110.Gap) (G : nat -> bool) : Prop :=
  forall g, head gaps = Some g ->
  forall i, (i <= V110.index g)%nat -> G i = false.

(** The store the scan leaves: ids assigned, null points tagged. *)
Definition scanned (iSeries : nat) (s : Series) : Series :=
  {| id := Some (V110.assignId iSeries s); data := map tagGap (data s) |}.

Fixpoint scannedFrom (iSeries : nat) (rest : list Series) : list Series :=
  match rest with
  | [] => []
  | s :: rest' => scanned iSeries s :: scannedFrom (S iSeries) rest'
  end.

(** The two arrays of the scan agree, and no position is recorded twice. *)
Definition consistent (c : V110.Collected) : Prop :=
  map V110.index (fst c) = snd c /\ NoDup (snd c).

(** Position [k] of [l] holds a null point. *)
Definition null_at (l : list Point) (k : nat) : Prop :=
  exists p, l !! k = Some p /\ is_null p = true.

(** The coordinates of a point. *)
Definition coords (p : Point) : Z * option Z := (x p, y p).

(** An input as the caller builds it: no point carries a [type]. *)
Definition raw (series : list Series) : Prop :=
  Forall (fun s => Forall (fun p => type p = None) (data s)) series.

(** No series has a null point. *)
Definition gap_free (series : list Series) : Prop :=
  Forall (fun s => Forall (fun p => is_null p = false) (data s)) series.

(** Every position with a null point lies inside every series and is not
    position 0.  For series of equal length this says that no series starts
    with a null point. *)
Definition gaps_inside (series : list Series) : Prop :=
  forall s j, In s series -> null_at (data s) j ->
  (1 <= j)%nat /\ forall s', In s' series -> (j < length (data s'))%nat.

(** ** Sample inputs *)

(** A point as the caller supplies it: [{x, y}]. *)
Definition pt (px : Z) (py : option Z) : Point := mkPoint px py None None.

(** A synthetic point as version 1.1.0 is expected to build it, written
    out: [{x, y, type: 'gapfix', marker: {enabled: false, states: {hover:
    {enabled: false}}}}]. *)
Definition gapfix (px : Z) (py : option Z) : Point :=
  {| x := px; y := py; type := Some "gapfix";
     marker := Some {| enabled := false; hover_enabled := false |} |}.

Definition series_of (l : list Point) : Series := mkSeries None l.

(** The example of the file header: [s1 = [1,1,1,1,1]], [s2 = [2,2,x,2,2]],
    at [x = 0 .. 4]. *)
Definition s1 : Series :=
  series_of [pt 0 (Some 1); pt 1 (Some 1); pt 2 (Some 1); pt 3 (Some 1);
             pt 4 (Some 1)].
Definition s2 : Series :=
  series_of [pt 0 (Some 2); pt 1 (Some 2); pt 2 None; pt 3 (Some 2);
             pt 4 (Some 2)].

(** A series with one isolated gap at [xg] between [(10, 5)] and [(20, 5)]. *)
Definition isolated (sid : option Id) (xg : Z) : Series :=
  mkSeries sid [pt 10 (Some 5); pt xg None; pt 20 (Some 5)].

(** A series with a run of two gaps, next to a series without gaps. *)
Definition run_series : Series :=
  series_of [pt 0 (Some 2); pt 10 (Some 2); pt 20 None; pt 30 None;
             pt 40 (Some 2); pt 50 (Some 2)].

Definition run_input : list Series :=
  [series_of [pt 0 (Some 1); pt 10 (Some 1); pt 20 (Some 1); pt 30 (Some 1);
              pt 40 (Some 1); pt 50 (Some 1)];
   run_series].

(** A series whose first point is null. *)
Definition leading_gap : Series := series_of [pt 0 None; pt 10 (Some 5)].

(** One series far beyond [2^53], where neighbouring doubles are 2048 apart:
    its points are doubles and more than 1000 apart. *)
Definition far_out : list Series :=
  [series_of [pt (2 ^ 63) (Some 1); pt (2 ^ 63 + 2048) None;
              pt (2 ^ 63 + 4096) (Some 1)]].

(** The store after one call on [[isolated None 15]] with fix distance 1, and
    after a second call on that store. *)
Definition once : list Series :=
  [mkSeries (Some (IdNum 0))
     [pt 10 (Some 5); gapfix 11 None; setType "gap" (pt 15 None);
      gapfix 19 None; pt 20 (Some 5)]].

Definition twice : list Series :=
  [mkSeries (Some (IdNum 0))
     [pt 10 (Some 5); gapfix 11 None; setType "gap" (gapfix 11 None);
      setType "gap" (pt 15 None); setType "gap" (gapfix 19 None);
      gapfix 19 None; pt 20 (Some 5)]].



(** ** Notions used by the further properties *)

(** A point was there before the call (up to the tag of the scan), or it
    is a synthetic one: tagged ['gapfix'], with its marker and the marker's
    hover state disabled. *)
Definition original_or_fix (originals : list Point) (p : Point) : Prop :=
  In p (map tagGap originals)
  \/ (type p = Some "gapfix"
      /\ marker p = Some {| enabled := false; hover_enabled := false |}).

(** No two neighbours are both tagged ['gapfix']. *)
Fixpoint no_adjacent_fix (l : list Point) : Prop :=
  match l with
  | a :: (b :: _) as t =>
      is_type "gapfix" a && is_type "gapfix" b = false /\ no_adjacent_fix t
  | _ => True
  end.

(** The first and the last point are not tagged ['gapfix']. *)
Definition ends_original (l : list Point) : Prop :=
  (forall p, head l = Some p -> is_type "gapfix" p = false)
  /\ (forall p, last l = Some p -> is_type "gapfix" p = false).

(** A point that a walk of [getPrev] or [getNext] steps over: null and not
    tagged ['gap']. *)
Definition skipped (p : Point) : Prop :=
  is_null p = true /\ is_type "gap" p = false.

(** The fix point an older revision puts at [bound + shift], unless the
    bound is 0, which the test [if (fix.xPrev)] takes for a missing one. *)
Definition unless_zero (bound : Z) (f : Point) : list Point :=
  if bound =? 0 then [] else [f].

(** A point is one of [originals], or was made by the constructor [mk] of
    synthetic points. *)
Definition original_or_made (mk : Z -> option Z -> Point)
  (originals : list Point) (p : Point) : Prop :=
  In p originals \/ exists px py, p = mk px py.

(** The bounds recorded in a fix keep [xPre + 1] and [xPost - 1] within
    [2^53]. *)
Definition fix_safe (f : Single2.Fix) : Prop :=
  (forall n, Single2.xPre f = Some n -> Z.abs n + 1 <= 2 ^ 53)
  /\ (forall n, Single2.xPost f = Some n -> Z.abs n + 1 <= 2 ^ 53).

(** What the second single-series revision computes, by one pass from the
    left: a null point gets a null fix point one after its left neighbour
    and one before its right neighbour (none next to a neighbour at
    [x = 0]), and the point behind a null point is passed over. *)
Definition inFront2 (prev : option Point) : list Point :=
  match prev with
  | Some a =>
      unless_zero (x a)
        {| x := x a + 1; y := None; type := Some "fix";
           marker := Some {| enabled := false; hover_enabled := false |} |}
  | None => []
  end.

Definition behind2 (n : Point) : list Point :=
  unless_zero (x n)
    {| x := x n - 1; y := None; type := Some "fix";
       marker := Some {| enabled := false; hover_enabled := false |} |}.

Fixpoint onePass2 (prev : option Point) (l : list Point) : list Point :=
  match l with
  | [] => []
  | o :: rest =>
      if is_null o then
        inFront2 prev ++
        o :: match rest with
             | [] => []
             | n :: rest' => behind2 n ++ n :: onePass2 (Some n) rest'
             end
      else o :: onePass2 (Some o) rest
  end.

(** * Lemmas *)

(** ** Arrays: reading, cutting and splicing at a known position *)

Section Arrays.

Context {A : Type}.
Implicit Types l r : list A.

Lemma lookup_at l r (a : A) (n : nat) :
  length l = n -> (l ++ a :: r) !! n = Some a.
Proof. intros <-. apply list_lookup_middle. reflexivity. Qed.

Lemma lookup_end l (n : nat) :
  length l = n -> l !! n = None.
Proof. intros <-. apply lookup_ge_None. lia. Qed.

Lemma drop_at l r (n : nat) :
  length l = n -> drop n (l ++ r) = r.
Proof. intros <-. apply drop_app_length. Qed.

Lemma take_at l r (n : nat) :
  length l = n -> take n (l ++ r) = l.
Proof. intros <-. apply take_app_length. Qed.

Lemma splice_at l r (a : A) (n : nat) :
  length l = n -> splice (l ++ r) n a = l ++ a :: r.
Proof.
  intros H. unfold splice. rewrite (take_at _ _ _ H), (drop_at _ _ _ H).
  reflexivity.
Qed.

Lemma sublist_splice l (n : nat) (a : A) : sublist l (splice l n a).
Proof.
  unfold splice. rewrite <- (take_drop n l) at 1.
  apply sublist_app; [reflexivity|]. apply sublist_cons. reflexivity.
Qed.

End Arrays.

(** ** One step of the rewrite loop *)

Section Steps.

Variable delta : Z.

Lemma insertGapFix_same (d d' : list Point) (i : nat) (f : Point) :
  V110.insertGapFix d i f = TypeError d' -> d' = d.
Proof.
  unfold V110.insertGapFix. destruct (d !! i) as [p|]; [|congruence].
  destruct (is_type "gapfix" p); discriminate.
Qed.

Lemma insertGapFix_sublist (d : list Point) (i : nat) (f : Point) :
  sublist d (store_of (V110.insertGapFix d i f)).
Proof.
  unfold V110.insertGapFix. destruct (d !! i) as [p|]; simpl; [|reflexivity].
  destruct (is_type "gapfix" p); simpl; [reflexivity|apply sublist_splice].
Qed.

Lemma fixGap_sublist (g : nat) (d : list Point) :
  sublist d (store_of (V110.fixGap delta g d)).
Proof.
  unfold V110.fixGap.
  destruct (V110.getPrev d g) as [|prev]; [reflexivity|].
  destruct (d !! g) as [p|]; [|reflexivity].
  set (next := V110.getNext d g).
  assert (Hn : forall f, sublist d (store_of
            match next with
            | Some n => V110.insertGapFix d (S g) (f n)
            | None => Done d
            end)).
  { intros f. destruct next; [apply insertGapFix_sublist|reflexivity]. }
  specialize (Hn (fun n => V110.createGapFixPoint (V110.bx n - delta)
                    (if is_null p then None else Some (V110.by_ n)))).
  cbv beta in Hn.
  destruct (match next with Some n => _ | None => _ end) as [d1|d1];
    simpl in Hn; [|exact Hn].
  destruct prev as [pv|]; [|exact Hn].
  etransitivity; [exact Hn|apply insertGapFix_sublist].
Qed.

Lemma fixGaps_sublist (gaps : list V110.Gap) (d : list Point) :
  sublist d (store_of (V110.fixGaps delta gaps d)).
Proof.
  revert d. induction gaps as [|g gaps IH]; intros d; simpl; [reflexivity|].
  pose proof (fixGap_sublist (V110.index g) d) as H.
  destruct (V110.fixGap delta (V110.index g) d) as [d1|d1]; simpl in *.
  - etransitivity; [exact H|apply IH].
  - exact H.
Qed.

End Steps.

Section StepShape.

Variable delta : Z.

Lemma insertGapFix_at (L R : list Point) (t f : Point) (n : nat) :
  length L = n ->
  V110.insertGapFix (L ++ t :: R) n f =
    Done (L ++ (if is_type "gapfix" t then [] else [f]) ++ t :: R).
Proof.
  intros Hn. unfold V110.insertGapFix. rewrite (lookup_at _ _ _ _ Hn).
  destruct (is_type "gapfix" t); [reflexivity|].
  rewrite (splice_at _ _ _ _ Hn). reflexivity.
Qed.

Lemma getPrev_at (L R : list Point) (a : Point) (m : nat) :
  length L = m ->
  (is_null a = true -> is_type "gap" a = true) ->
  V110.getPrev (L ++ a :: R) (S m) =
    inr (V110.mkBoundary (x a) <$> boundary a).
Proof.
  intros Hm Ht. simpl. rewrite (lookup_at _ _ _ _ Hm). unfold boundary.
  destruct (is_type "gap" a); [reflexivity|].
  unfold is_null in Ht. destruct (y a); [reflexivity|].
  specialize (Ht eq_refl). discriminate.
Qed.

(** The round for the gap at position [S m], on an array whose points around
    that position are known. *)
Lemma fixGap_step (L T : list Point) (a o : Point) (m : nat) :
  length L = m ->
  (is_null a = true -> is_type "gap" a = true) ->
  V110.fixGap delta (S m) (L ++ a :: o :: T) =
    Done (L ++ a :: fixBefore delta a o ++ o :: fixBehind delta o T ++ T).
Proof.
  intros Hm Ht.
  assert (H1 : length (L ++ [a]) = S m) by (rewrite length_app; simpl; lia).
  assert (H2 : length (L ++ [a; o]) = S (S m))
    by (rewrite length_app; simpl; lia).
  assert (E1 : forall R, L ++ a :: o :: R = (L ++ [a]) ++ o :: R)
    by (intros R; rewrite <- app_assoc; reflexivity).
  assert (E2 : forall R, L ++ a :: o :: R = (L ++ [a; o]) ++ R)
    by (intros R; rewrite <- app_assoc; reflexivity).
  unfold V110.fixGap. rewrite (getPrev_at _ _ _ _ Hm Ht).
  unfold V110.getNext.
  replace (drop (S (S m)) (L ++ a :: o :: T)) with T
    by (rewrite (E2 T), (drop_at _ _ _ H2); reflexivity).
  replace ((L ++ a :: o :: T) !! S m) with (Some o)
    by (rewrite (E1 T), (lookup_at _ _ _ _ H1); reflexivity).
  assert (Hnext :
    match V110.getNext_from T with
    | Some n =>
        V110.insertGapFix (L ++ a :: o :: T) (S (S m))
          (V110.createGapFixPoint (V110.bx n - delta)
             (if is_null o then None else Some (V110.by_ n)))
    | None => Done (L ++ a :: o :: T)
    end = Done (L ++ a :: o :: fixBehind delta o T ++ T)).
  { unfold fixBehind. destruct (V110.getNext_from T) as [n|] eqn:En.
    - destruct T as [|t T']; [discriminate En|].
      rewrite (E2 (t :: T')), (insertGapFix_at _ _ _ _ _ H2).
      rewrite (E2 (_ ++ t :: T')).
      destruct (is_type "gapfix" t); reflexivity.
    - reflexivity. }
  rewrite Hnext. unfold fixBefore.
  destruct (boundary a) as [v|]; simpl; [|reflexivity].
  rewrite (E1 (fixBehind delta o T ++ T)), (insertGapFix_at _ _ _ _ _ H1).
  rewrite <- app_assoc. simpl.
  destruct (is_type "gapfix" o); reflexivity.
Qed.

Lemma insertGapFix_throw (d d' : list Point) (i : nat) (f : Point) :
  V110.insertGapFix d i f = TypeError d' -> d !! i = None.
Proof.
  unfold V110.insertGapFix. destruct (d !! i) as [p|]; [|reflexivity].
  destruct (is_type "gapfix" p); discriminate.
Qed.

Lemma insertGapFix_below (d d' : list Point) (i j : nat) (f p : Point) :
  V110.insertGapFix d i f = Done d' -> (j < i)%nat ->
  d !! j = Some p -> d' !! j = Some p.
Proof.
  unfold V110.insertGapFix. destruct (d !! i) as [q|] eqn:Eq; [|discriminate].
  apply lookup_lt_Some in Eq.
  destruct (is_type "gapfix" q); intros [= <-] Hj Hp; [exact Hp|].
  unfold splice. rewrite lookup_app_l by (rewrite length_take; lia).
  rewrite lookup_take_lt by lia. exact Hp.
Qed.

Lemma getNext_from_Some (ahead : list Point) (n : V110.Boundary) :
  V110.getNext_from ahead = Some n -> ahead <> [].
Proof. destruct ahead; [discriminate|discriminate]. Qed.

(** A round throws only before it has changed the array. *)
Lemma fixGap_throw_same (g : nat) (d d' : list Point) :
  V110.fixGap delta g d = TypeError d' -> d' = d.
Proof.
  unfold V110.fixGap.
  destruct (V110.getPrev d g) as [|prev]; [congruence|].
  destruct (d !! g) as [p|] eqn:Ep; [|congruence].
  set (first := match V110.getNext d g with Some n => _ | None => _ end).
  assert (Hfirst : exists d1, first = Done d1 /\ d1 !! g = Some p).
  { subst first. destruct (V110.getNext d g) as [n|] eqn:En; [|eauto].
    match goal with |- context [V110.insertGapFix d (S g) ?f] =>
      destruct (V110.insertGapFix d (S g) f) as [d1|d1] eqn:E1 end.
    - exists d1. split; [reflexivity|].
      eapply insertGapFix_below; [exact E1|lia|exact Ep].
    - exfalso. apply insertGapFix_throw in E1.
      apply getNext_from_Some in En. apply En.
      apply lookup_ge_None in E1. apply drop_ge. exact E1. }
  destruct Hfirst as (d1 & -> & Hd1).
  destruct prev as [pv|]; [|discriminate].
  intros H. apply insertGapFix_throw in H. congruence.
Qed.

End StepShape.

(** ** Facts about the position-wise description *)

Section ExpandFacts.

Variable delta : Z.

Lemma last_or_cons (prev : option Point) (a : Point) (l : list Point) :
  last_or prev (a :: l) = last_or (Some a) l.
Proof. unfold last_or. rewrite last_cons. destruct (last l); reflexivity. Qed.

Lemma last_or_snoc (prev : option Point) (l : list Point) (a : Point) :
  last_or prev (l ++ [a]) = Some a.
Proof. unfold last_or. rewrite last_snoc. reflexivity. Qed.

(** Positions that are not rewritten keep their points as they are. *)
Lemma expandFrom_skip (G : nat -> bool) (l1 l2 : list Point) :
  forall (k : nat) (prev : option Point),
  (forall i, (k <= i < k + length l1)%nat -> G i = false) ->
  expandFrom delta G k prev (l1 ++ l2) =
    l1 ++ expandFrom delta G (k + length l1) (last_or prev l1) l2.
Proof.
  induction l1 as [|a l1 IH]; intros k prev HG.
  - simpl. rewrite Nat.add_0_r. reflexivity.
  - simpl. unfold prevFix, nextFix. rewrite (HG k) by (simpl; lia). simpl.
    rewrite IH by (intros i Hi; apply HG; simpl; lia).
    rewrite last_or_cons. f_equal. f_equal. f_equal. simpl. lia.
Qed.

Lemma expandFrom_ext (G G' : nat -> bool) (l : list Point) :
  forall (k : nat) (prev : option Point),
  (forall i, (k <= i)%nat -> G i = G' i) ->
  expandFrom delta G k prev l = expandFrom delta G' k prev l.
Proof.
  induction l as [|o l IH]; intros k prev HG; [reflexivity|].
  simpl. rewrite (IH (S k) (Some o)) by (intros i Hi; apply HG; lia).
  unfold nextFix, prevFix.
  rewrite (HG k) by lia. destruct (G' k); [|reflexivity].
  destruct l as [|n l]; [reflexivity|].
  rewrite (HG (S k)) by lia. reflexivity.
Qed.

Lemma expand_none (G : nat -> bool) (l : list Point) :
  (forall i, (i < length l)%nat -> G i = false) -> expand delta G l = l.
Proof.
  intros HG. unfold expand. rewrite <- (app_nil_r l) at 1.
  rewrite expandFrom_skip by (intros i Hi; apply HG; lia).
  simpl. apply app_nil_r.
Qed.

Lemma fixBefore_cases (a o : Point) :
  fixBefore delta a o = [] \/
  exists py, fixBefore delta a o = [V110.createGapFixPoint (x a + delta) py].
Proof.
  unfold fixBefore. destruct (boundary a); [|auto].
  destruct (is_type "gapfix" o); eauto.
Qed.

Lemma prevFix_cases (G : nat -> bool) (k : nat) (prev : option Point)
  (o : Point) :
  prevFix delta G k prev o = [] \/
  exists a py, prev = Some a /\
    prevFix delta G k prev o = [V110.createGapFixPoint (x a + delta) py].
Proof.
  unfold prevFix. destruct (G k); [|auto]. destruct prev as [a|]; [|auto].
  destruct (fixBefore_cases a o) as [->|[py ->]]; eauto.
Qed.

Lemma nextFix_cases (G : nat -> bool) (k : nat) (o : Point)
  (rest : list Point) :
  nextFix delta G k o rest = [] \/
  exists n rest' py, rest = n :: rest' /\
    prevFix delta G (S k) (Some o) n = [] /\
    nextFix delta G k o rest = [V110.createGapFixPoint (x n - delta) py].
Proof.
  unfold nextFix. destruct (G k); [|auto]. destruct rest as [|n rest']; [auto|].
  destruct (prevFix delta G (S k) (Some o) n) eqn:E; [|auto].
  unfold fixAfter. destruct (boundary n); [|auto].
  destruct (is_type "gapfix" n); [auto|]. right. eauto 6.
Qed.

(** What the loop finds behind [o] is what the description puts there. *)
Lemma nextFix_behind (G G' : nat -> bool) (m : nat) (o : Point)
  (T : list Point) :
  tagged T -> G' m = true -> G' (S m) = G (S m) ->
  nextFix delta G' m o T =
    fixBehind delta o (expandFrom delta G (S m) (Some o) T).
Proof.
  intros Ht Hm HS. unfold nextFix. rewrite Hm.
  destruct T as [|n T']; [reflexivity|]. simpl.
  assert (E : prevFix delta G' (S m) (Some o) n =
              prevFix delta G (S m) (Some o) n)
    by (unfold prevFix; rewrite HS; reflexivity).
  rewrite E.
  destruct (prevFix_cases G (S m) (Some o) n) as [->|(a & py & _ & ->)].
  - simpl. unfold fixBehind, fixAfter, boundary. simpl.
    apply Forall_cons in Ht as [Hn _].
    destruct (is_type "gap" n); [reflexivity|].
    unfold is_null in Hn. destruct (y n); [reflexivity|].
    specialize (Hn eq_refl). discriminate.
  - unfold fixBehind.
    destruct (V110.getNext_from _); reflexivity.
Qed.

Lemma split_at (l : list Point) (m : nat) :
  (S m < length l)%nat ->
  exists L a o T, l = L ++ a :: o :: T /\ length L = m.
Proof.
  intros H. exists (take m l).
  destruct (drop m l) as [|a [|o T]] eqn:E.
  - apply (f_equal length) in E. rewrite length_drop in E. simpl in E. lia.
  - apply (f_equal length) in E. rewrite length_drop in E. simpl in E. lia.
  - exists a, o, T. split.
    + rewrite <- E. symmetry. apply take_drop.
    + rewrite length_take. lia.
Qed.

(** One round of the loop, on the description: the gap at [g] joins the
    positions rewritten, or the round throws and leaves the array alone. *)
Lemma fixGap_expand (G : nat -> bool) (g : nat) (l : list Point) :
  tagged l ->
  (forall i, (i <= g)%nat -> G i = false) ->
  V110.fixGap delta g (expand delta G l) =
    if (1 <=? g)%nat && (g <? length l)%nat
    then Done (expand delta (add g G) l)
    else TypeError (expand delta G l).
Proof.
  intros Ht HG. destruct g as [|m]; [reflexivity|].
  destruct (S m <? length l)%nat eqn:Elt; simpl.
  - apply Nat.ltb_lt in Elt.
    destruct (split_at l m Elt) as (L & a & o & T & -> & HL).
    assert (Hta : is_null a = true -> is_type "gap" a = true).
    { apply Forall_app in Ht as [_ Ht]. apply Forall_cons in Ht as [Ha _].
      exact Ha. }
    assert (HtT : tagged T).
    { apply Forall_app in Ht as [_ Ht]. apply Forall_cons in Ht as [_ Ht].
      apply Forall_cons in Ht as [_ Ht]. exact Ht. }
    unfold expand.
    replace (L ++ a :: o :: T) with ((L ++ [a; o]) ++ T) at 1
      by (rewrite <- app_assoc; reflexivity).
    rewrite expandFrom_skip
      by (intros i Hi; apply HG; rewrite length_app in Hi; simpl in Hi; lia).
    replace (L ++ [a; o]) with ((L ++ [a]) ++ [o])
      by (rewrite <- app_assoc; reflexivity).
    rewrite last_or_snoc, length_app, length_app. simpl.
    rewrite <- !app_assoc. simpl.
    rewrite (fixGap_step delta L _ a o m HL Hta).
    replace (L ++ a :: o :: T) with ((L ++ [a]) ++ o :: T)
      by (rewrite <- app_assoc; reflexivity).
    rewrite expandFrom_skip.
    2:{ intros i Hi. rewrite length_app in Hi. simpl in Hi. unfold add.
        rewrite (HG i) by lia.
        replace (i =? S m)%nat with false
          by (symmetry; apply Nat.eqb_neq; lia). reflexivity. }
    rewrite last_or_snoc, length_app. simpl.
    rewrite <- app_assoc. simpl.
    assert (Hg : add (S m) G (S m) = true)
      by (unfold add; rewrite Nat.eqb_refl; reflexivity).
    assert (Hs : forall i, (S (S m) <= i)%nat -> add (S m) G i = G i).
    { intros i Hi. unfold add.
      replace (i =? S m)%nat with false
        by (symmetry; apply Nat.eqb_neq; lia). reflexivity. }
    replace (length L + 1)%nat with (S m) by lia.
    replace (S m + 1)%nat with (S (S m)) by lia.
    unfold prevFix at 1. rewrite Hg.
    rewrite (nextFix_behind G (add (S m) G) (S m) o T HtT Hg (Hs _ (le_n _))).
    rewrite (expandFrom_ext (add (S m) G) G T (S (S m)) (Some o) Hs).
    reflexivity.
  - apply Nat.ltb_ge in Elt.
    rewrite expand_none by (intros i Hi; apply HG; lia).
    unfold V110.fixGap. destruct (V110.getPrev l (S m)); [reflexivity|].
    rewrite (proj2 (lookup_ge_None l (S m))) by lia. reflexivity.
Qed.

End ExpandFacts.

(** ** The rewrite loop over all gaps *)

Section Loop.

Variable delta : Z.

Lemma below_next (g : V110.Gap) (gaps : list V110.Gap) (G : nat -> bool) :
  descending (map V110.index (g :: gaps)) -> below (g :: gaps) G ->
  below gaps (add (V110.index g) G).
Proof.
  intros Hd Hb g' Hg' i Hi. destruct gaps as [|g2 gaps]; [discriminate|].
  injection Hg' as ->. simpl in Hd. destruct Hd as [Hlt _]. unfold add.
  rewrite (Hb g eq_refl i) by lia.
  replace (i =? V110.index g)%nat with false
    by (symmetry; apply Nat.eqb_neq; lia).
  reflexivity.
Qed.

Lemma descending_tail (a : nat) (l : list nat) :
  descending (a :: l) -> descending l.
Proof. destruct l; [trivial|]. intros [_ H]. exact H. Qed.

(** Whatever the outcome, the array left behind is the description for the
    gaps rewritten before the loop ended. *)
Lemma fixGaps_store (l : list Point) (gaps : list V110.Gap) :
  tagged l ->
  forall G, descending (map V110.index gaps) -> below gaps G ->
  exists G', store_of (V110.fixGaps delta gaps (expand delta G l)) =
             expand delta G' l.
Proof.
  intros Ht. induction gaps as [|g gaps IH]; intros G Hd Hb.
  - exists G. reflexivity.
  - simpl. rewrite (fixGap_expand delta G (V110.index g) l Ht (Hb g eq_refl)).
    destruct ((1 <=? V110.index g)%nat && (V110.index g <? length l)%nat).
    + apply IH.
      * exact (descending_tail _ _ Hd).
      * exact (below_next g gaps G Hd Hb).
    + exists G. reflexivity.
Qed.

(** When the loop returns, every gap has been rewritten. *)
Lemma fixGaps_Done (l : list Point) (gaps : list V110.Gap) :
  tagged l ->
  forall G d, descending (map V110.index gaps) -> below gaps G ->
  V110.fixGaps delta gaps (expand delta G l) = Done d ->
  d = expand delta (fun i => member gaps i || G i) l
  /\ Forall (fun g => (1 <= V110.index g < length l)%nat) gaps.
Proof.
  intros Ht. induction gaps as [|g gaps IH]; intros G d Hd Hb.
  - simpl. intros [= <-]. split; [reflexivity|constructor].
  - simpl. rewrite (fixGap_expand delta G (V110.index g) l Ht (Hb g eq_refl)).
    destruct ((1 <=? V110.index g)%nat && (V110.index g <? length l)%nat)
      eqn:Ev; [|discriminate].
    intros H.
    apply IH in H as [-> Hall];
      [|exact (descending_tail _ _ Hd)|exact (below_next g gaps G Hd Hb)].
    split.
    + apply expandFrom_ext. intros i _. unfold add, member. simpl.
      destruct (i =? V110.index g)%nat, (existsb _ gaps); reflexivity.
    + constructor; [|exact Hall].
      apply andb_true_iff in Ev as [E1 E2].
      apply Nat.leb_le in E1. apply Nat.ltb_lt in E2. lia.
Qed.

(** And when every gap lies inside the array, away from position 0, the loop
    does return. *)
Lemma fixGaps_returns (l : list Point) (gaps : list V110.Gap) :
  tagged l ->
  forall G, descending (map V110.index gaps) -> below gaps G ->
  Forall (fun g => (1 <= V110.index g < length l)%nat) gaps ->
  V110.fixGaps delta gaps (expand delta G l) =
    Done (expand delta (fun i => member gaps i || G i) l).
Proof.
  intros Ht. induction gaps as [|g gaps IH]; intros G Hd Hb Hall.
  - reflexivity.
  - simpl. rewrite (fixGap_expand delta G (V110.index g) l Ht (Hb g eq_refl)).
    apply Forall_cons in Hall as [Hg Hall].
    replace ((1 <=? V110.index g)%nat && (V110.index g <? length l)%nat)
      with true.
    2:{ symmetry. apply andb_true_iff. split.
        - apply Nat.leb_le. lia.
        - apply Nat.ltb_lt. lia. }
    rewrite IH;
      [|exact (descending_tail _ _ Hd)|exact (below_next g gaps G Hd Hb)
       |exact Hall].
    f_equal. apply expandFrom_ext. intros i _. unfold add, member. simpl.
    destruct (i =? V110.index g)%nat, (existsb _ gaps); reflexivity.
Qed.

End Loop.

(** ** Strict growth of the described array *)

Section Growth.

Variable delta : Z.
Hypothesis delta_pos : 0 < delta.

Lemma increasing_tail (a : Z) (l : list Z) :
  increasing (a :: l) -> increasing l.
Proof. destruct l; [trivial|]. intros [_ H]. exact H. Qed.

Lemma spaced_tail (a : Point) (l : list Point) :
  spaced delta (a :: l) -> spaced delta l.
Proof. destruct l; [trivial|]. intros [_ H]. exact H. Qed.

Lemma expandFrom_increasing (G : nat -> bool) (l : list Point) :
  forall (k : nat) (prev : option Point),
  spaced delta l ->
  match prev, l with
  | Some a, o :: _ => x a + delta < x o
  | _, _ => True
  end ->
  increasing_after prev (xs (expandFrom delta G k prev l)).
Proof.
  induction l as [|o rest IH]; intros k prev Hs Hp.
  - destruct prev; simpl; trivial.
  - assert (IHo : increasing
              (x o :: xs (expandFrom delta G (S k) (Some o) rest))).
    { apply (IH (S k) (Some o)); [exact (spaced_tail _ _ Hs)|].
      destruct rest; [trivial|]. destruct Hs as [H _]. exact H. }
    assert (Hmid : increasing
              (x o :: xs (nextFix delta G k o rest ++
                          expandFrom delta G (S k) (Some o) rest))).
    { destruct (nextFix_cases delta G k o rest)
        as [->|(n & rest' & py & -> & E & ->)]; [exact IHo|].
      simpl in IHo |- *. rewrite E in IHo |- *. simpl in IHo |- *.
      destruct Hs as [Hon _]. destruct IHo as [_ IHn].
      split; [lia|]. split; [lia|]. exact IHn. }
    simpl expandFrom.
    destruct (prevFix_cases delta G k prev o) as [->|(a & py & -> & ->)].
    + simpl. destruct prev as [a|]; [|exact Hmid].
      simpl. split; [lia|exact Hmid].
    + simpl. split; [lia|]. split; [lia|exact Hmid].
Qed.

Lemma expand_increasing (G : nat -> bool) (l : list Point) :
  spaced delta l -> increasing (xs (expand delta G l)).
Proof.
  intros Hs. apply (expandFrom_increasing G l O None Hs). trivial.
Qed.

End Growth.

(** ** The scan *)

Section Scan.

Lemma scanData_fst (sid : Id) (rest : list Point) :
  forall (iData : nat) (c : V110.Collected),
  fst (V110.scanData sid iData rest c) = map tagGap rest.
Proof.
  induction rest as [|p rest IH]; intros iData c; [reflexivity|].
  simpl. unfold tagGap at 1. destruct (is_null p).
  - specialize (IH (S iData) (V110.collectGap sid iData p c)).
    destruct (V110.scanData sid (S iData) rest _) as [out c'].
    simpl in *. congruence.
  - specialize (IH (S iData) c).
    destruct (V110.scanData sid (S iData) rest c) as [out c'].
    simpl in *. congruence.
Qed.

Lemma scanSeries_fst (rest : list Series) :
  forall (iSeries : nat) (c : V110.Collected),
  fst (V110.scanSeries iSeries rest c) = scannedFrom iSeries rest.
Proof.
  induction rest as [|s rest IH]; intros iSeries c; [reflexivity|].
  simpl.
  pose proof (scanData_fst (V110.assignId iSeries s) (data s) O c) as Hd.
  destruct (V110.scanData _ O (data s) c) as [d c1].
  specialize (IH (S iSeries) c1).
  destruct (V110.scanSeries (S iSeries) rest c1) as [out c2].
  simpl in *. unfold scanned. congruence.
Qed.

Lemma indexOf_None (l : list nat) (v : nat) :
  V110.indexOf l v = None -> ~ In v l.
Proof.
  induction l as [|a l IH]; simpl; [tauto|].
  destruct (a =? v)%nat eqn:E; [discriminate|].
  apply Nat.eqb_neq in E. destruct (V110.indexOf l v); [discriminate|].
  intros _ [H|H]; [congruence|]. exact (IH eq_refl H).
Qed.

Lemma indexOf_Some (l : list nat) (v k : nat) :
  V110.indexOf l v = Some k -> In v l.
Proof.
  revert k. induction l as [|a l IH]; intros k; simpl; [discriminate|].
  destruct (a =? v)%nat eqn:E.
  - apply Nat.eqb_eq in E. auto.
  - destruct (V110.indexOf l v) as [k'|]; [|discriminate]. eauto.
Qed.

Lemma map_index_alter (sid : Id) (k : nat) (gaps : list V110.Gap) :
  map V110.index (alter (V110.pushId sid) k gaps) = map V110.index gaps.
Proof.
  revert k. induction gaps as [|g gaps IH]; intros k; [reflexivity|].
  destruct k; simpl; [reflexivity|]. f_equal. apply IH.
Qed.

(** Recording one gap: the position is recorded afterwards, nothing recorded
    is lost, and nothing else is added. *)
Lemma collectGap_spec (sid : Id) (iData : nat) (p : Point)
  (c : V110.Collected) :
  consistent c ->
  consistent (V110.collectGap sid iData p c)
  /\ forall j, In j (snd (V110.collectGap sid iData p c)) <->
               j = iData \/ In j (snd c).
Proof.
  destruct c as [gaps gapIds]. intros [Hm Hn]. simpl in Hm, Hn.
  unfold V110.collectGap.
  destruct (V110.indexOf gapIds iData) as [k|] eqn:E.
  - split.
    + split; simpl; [|exact Hn]. rewrite map_index_alter. exact Hm.
    + intros j. simpl. split; [auto|]. intros [->|H]; [|exact H].
      exact (indexOf_Some _ _ _ E).
  - apply indexOf_None in E. split.
    + split; simpl.
      * rewrite map_app, Hm. reflexivity.
      * apply NoDup_app. split; [exact Hn|]. split.
        -- intros j Hj Hj'. apply list_elem_of_In in Hj.
           apply list_elem_of_In in Hj'. destruct Hj' as [->|[]]. exact (E Hj).
        -- apply NoDup_singleton.
    + intros j. simpl. rewrite in_app_iff. simpl. intuition congruence.
Qed.

Lemma scanData_spec (sid : Id) (rest : list Point) :
  forall (iData : nat) (c : V110.Collected),
  consistent c ->
  consistent (snd (V110.scanData sid iData rest c))
  /\ forall j, In j (snd (snd (V110.scanData sid iData rest c))) <->
               In j (snd c) \/
               exists k, j = (iData + k)%nat /\ null_at rest k.
Proof.
  induction rest as [|p rest IH]; intros iData c Hc.
  - simpl. split; [exact Hc|]. intros j. split; [auto|].
    intros [H|(k & _ & q & Hq & _)]; [exact H|discriminate].
  - simpl. destruct (is_null p) eqn:Ep.
    + destruct (collectGap_spec sid iData p c Hc) as [Hc1 Hin1].
      specialize (IH (S iData) _ Hc1).
      destruct (V110.scanData sid (S iData) rest _) as [out c'].
      simpl in *. destruct IH as [Hc' Hin]. split; [exact Hc'|].
      intros j. rewrite Hin, Hin1. split.
      * intros [[->|H]|(k & -> & Hk)]; [| auto |].
        -- right. exists O. split; [lia|]. exists p. auto.
        -- right. exists (S k). split; [lia|exact Hk].
      * intros [H|(k & -> & q & Hq & Hnull)]; [auto|].
        destruct k as [|k].
        -- left. left. lia.
        -- right. exists k. split; [lia|]. exists q. auto.
    + specialize (IH (S iData) c Hc).
      destruct (V110.scanData sid (S iData) rest c) as [out c'].
      simpl in *. destruct IH as [Hc' Hin]. split; [exact Hc'|].
      intros j. rewrite Hin. split.
      * intros [H|(k & -> & Hk)]; [auto|].
        right. exists (S k). split; [lia|exact Hk].
      * intros [H|(k & -> & q & Hq & Hnull)]; [auto|].
        destruct k as [|k].
        -- simpl in Hq. injection Hq as <-. congruence.
        -- right. exists k. split; [lia|]. exists q. auto.
Qed.

Lemma scanSeries_spec (rest : list Series) :
  forall (iSeries : nat) (c : V110.Collected),
  consistent c ->
  consistent (snd (V110.scanSeries iSeries rest c))
  /\ forall j, In j (snd (snd (V110.scanSeries iSeries rest c))) <->
               In j (snd c) \/
               exists s, In s rest /\ null_at (data s) j.
Proof.
  induction rest as [|s rest IH]; intros iSeries c Hc.
  - simpl. split; [exact Hc|]. intros j. split; [auto|].
    intros [H|(s & [] & _)]. exact H.
  - simpl.
    pose proof (scanData_spec (V110.assignId iSeries s) (data s) O c Hc)
      as [Hc1 Hin1].
    destruct (V110.scanData _ O (data s) c) as [d c1].
    specialize (IH (S iSeries) c1 Hc1).
    destruct (V110.scanSeries (S iSeries) rest c1) as [out c2].
    simpl in *. destruct IH as [Hc2 Hin2]. split; [exact Hc2|].
    intros j. rewrite Hin2, Hin1. split.
    + intros [[H|(k & -> & Hk)]|(s' & Hs' & Hj)]; [auto| |].
      * right. exists s. auto.
      * right. exists s'. auto.
    + intros [H|(s' & [<-|Hs'] & Hj)]; [auto| |].
      * left. right. exists j. auto.
      * right. exists s'. auto.
Qed.

End Scan.

(** ** Sorting the gaps *)

Section Sorting.

Lemma insertSorted_index_In (i : nat) (a : V110.Gap) (l : list V110.Gap) :
  In i (map V110.index (V110.insertSorted a l)) <->
  i = V110.index a \/ In i (map V110.index l).
Proof.
  induction l as [|h t IH]; simpl; [intuition|].
  destruct (V110.sortByIndex a h <=? 0); simpl; [intuition|].
  rewrite IH. intuition.
Qed.

Lemma sortGaps_index_In (i : nat) (l : list V110.Gap) :
  In i (map V110.index (V110.sortGaps l)) <-> In i (map V110.index l).
Proof.
  induction l as [|a l IH]; simpl; [tauto|].
  rewrite insertSorted_index_In, IH. intuition.
Qed.

Lemma sortByIndex_le (a h : V110.Gap) :
  (V110.sortByIndex a h <=? 0) = true <-> (V110.index a <= V110.index h)%nat.
Proof.
  unfold V110.sortByIndex.
  destruct (V110.index a <? V110.index h)%nat eqn:E1.
  - apply Nat.ltb_lt in E1. split; [lia|reflexivity].
  - apply Nat.ltb_ge in E1.
    destruct (V110.index h <? V110.index a)%nat eqn:E2.
    + apply Nat.ltb_lt in E2. split; [discriminate|lia].
    + apply Nat.ltb_ge in E2. split; [lia|reflexivity].
Qed.

Lemma insertSorted_sorted (a : V110.Gap) (l : list V110.Gap) :
  StronglySorted lt (map V110.index l) ->
  ~ In (V110.index a) (map V110.index l) ->
  StronglySorted lt (map V110.index (V110.insertSorted a l)).
Proof.
  induction l as [|h t IH]; intros Hs Hn; simpl.
  - repeat constructor.
  - simpl in Hs, Hn. apply StronglySorted_inv in Hs as [Hst Hall].
    destruct (V110.sortByIndex a h <=? 0) eqn:E.
    + apply sortByIndex_le in E.
      assert (Hlt : (V110.index a < V110.index h)%nat) by lia.
      simpl. constructor; [constructor; assumption|].
      constructor; [exact Hlt|].
      rewrite List.Forall_forall in Hall |- *. intros j Hj.
      specialize (Hall j Hj). lia.
    + assert (Hlt : (V110.index h < V110.index a)%nat).
      { destruct (Nat.le_gt_cases (V110.index a) (V110.index h)) as [H|H];
          [|exact H].
        apply sortByIndex_le in H. congruence. }
      simpl. constructor; [apply IH; [exact Hst|tauto]|].
      rewrite List.Forall_forall in Hall |- *. intros j Hj.
      apply insertSorted_index_In in Hj as [->|Hj]; [exact Hlt|auto].
Qed.

Lemma sortGaps_sorted (l : list V110.Gap) :
  NoDup (map V110.index l) ->
  StronglySorted lt (map V110.index (V110.sortGaps l)).
Proof.
  induction l as [|a l IH]; intros Hn; simpl; [constructor|].
  simpl in Hn. apply NoDup_cons in Hn as [Ha Hn].
  apply insertSorted_sorted; [exact (IH Hn)|].
  rewrite sortGaps_index_In. intros H. apply Ha.
  apply list_elem_of_In. exact H.
Qed.

Lemma descending_snoc (l : list nat) (a : nat) :
  descending l -> List.Forall (lt a) l -> descending (l ++ [a]).
Proof.
  induction l as [|b l IH]; intros Hd Hall; [exact I|].
  apply List.Forall_cons_iff in Hall as [Hab Hall].
  destruct l as [|c l]; simpl.
  - split; [exact Hab|exact I].
  - destruct Hd as [Hcb Hd]. split; [exact Hcb|]. exact (IH Hd Hall).
Qed.

Lemma sorted_rev_descending (l : list nat) :
  StronglySorted lt l -> descending (rev l).
Proof.
  induction l as [|a l IH]; intros Hs; [exact I|].
  apply StronglySorted_inv in Hs as [Hs Hall]. simpl.
  apply descending_snoc; [exact (IH Hs)|].
  apply List.Forall_rev. exact Hall.
Qed.

Lemma member_In (gaps : list V110.Gap) (i : nat) :
  member gaps i = true <-> In i (map V110.index gaps).
Proof.
  unfold member. rewrite existsb_exists, in_map_iff. split.
  - intros (g & Hg & E). apply Nat.eqb_eq in E. eauto.
  - intros (g & E & Hg). exists g. split; [exact Hg|].
    apply Nat.eqb_eq. congruence.
Qed.

(** The scan as a whole: the store it leaves, and the gaps it hands to the
    rewrite loop: every position where some series has a null point, once,
    highest first. *)
Lemma scan_spec (series : list Series) :
  exists gaps,
    V110.scan series = (scannedFrom O series, gaps)
    /\ descending (map V110.index gaps)
    /\ forall j, member gaps j = true <->
                 exists s, In s series /\ null_at (data s) j.
Proof.
  unfold V110.scan.
  pose proof (scanSeries_fst series O ([], [])) as Hf.
  assert (Hc0 : consistent ([], [])) by (split; [reflexivity|constructor]).
  pose proof (scanSeries_spec series O ([], []) Hc0) as [[Hm Hn] Hin].
  destruct (V110.scanSeries O series ([], [])) as [series' [gaps gapIds]].
  simpl in *. subst series'.
  exists (rev (V110.sortGaps gaps)). split; [reflexivity|]. split.
  - rewrite map_rev. apply sorted_rev_descending, sortGaps_sorted.
    rewrite Hm. exact Hn.
  - intros j. rewrite member_In, map_rev, <- in_rev, sortGaps_index_In.
    rewrite Hm, Hin. intuition.
Qed.

End Sorting.

(** ** The rewrite loop over the series *)

Section Series.

Variable delta : Z.

Lemma fixAll_store (gaps : list V110.Gap) (ss : list Series) :
  Forall2
    (fun s s' =>
       s' = s \/
       s' = setData s (store_of (V110.fixGaps delta gaps (data s))))
    ss (store_of (V110.fixAll delta gaps ss)).
Proof.
  induction ss as [|s ss IH]; simpl; [constructor|].
  destruct (V110.fixGaps delta gaps (data s)) as [d|d] eqn:E.
  - destruct (V110.fixAll delta gaps ss) as [out|out]; simpl in *;
      (constructor; [right; rewrite E; reflexivity|exact IH]).
  - simpl. constructor; [right; rewrite E; reflexivity|].
    clear. induction ss; constructor; auto.
Qed.

Lemma fixAll_Done (gaps : list V110.Gap) (ss out : list Series) :
  V110.fixAll delta gaps ss = Done out ->
  Forall2
    (fun s s' =>
       exists d, V110.fixGaps delta gaps (data s) = Done d /\
                 s' = setData s d)
    ss out.
Proof.
  revert out. induction ss as [|s ss IH]; intros out; simpl.
  - intros [= <-]. constructor.
  - destruct (V110.fixGaps delta gaps (data s)) as [d|d] eqn:E;
      [|discriminate].
    destruct (V110.fixAll delta gaps ss) as [out'|out']; [|discriminate].
    intros [= <-]. constructor; [eauto|]. apply IH. reflexivity.
Qed.

Lemma fixAll_returns (gaps : list V110.Gap) (ss : list Series) :
  Forall (fun s => exists d, V110.fixGaps delta gaps (data s) = Done d) ss ->
  exists out, V110.fixAll delta gaps ss = Done out.
Proof.
  induction ss as [|s ss IH]; intros H; simpl; [eauto|].
  apply Forall_cons in H as [[d ->] H].
  destruct (IH H) as [out ->]. eauto.
Qed.

End Series.

(** ** The whole call *)

Section Call.

Variable delta : Z.

Lemma tagged_tagGap (l : list Point) : tagged (map tagGap l).
Proof.
  unfold tagged. apply Forall_map, Forall_forall. intros p _.
  unfold tagGap. destruct (is_null p) eqn:E; [reflexivity|].
  intros H. congruence.
Qed.

Lemma x_tagGap (p : Point) : x (tagGap p) = x p.
Proof. unfold tagGap. destruct (is_null p); reflexivity. Qed.

Lemma coords_tagGap (p : Point) : coords (tagGap p) = coords p.
Proof. unfold tagGap. destruct (is_null p); reflexivity. Qed.

Lemma spaced_tagGap (l : list Point) :
  spaced delta l -> spaced delta (map tagGap l).
Proof.
  induction l as [|a l IH]; [trivial|].
  destruct l as [|b l]; [trivial|].
  intros [Hab Hs]. split; [rewrite !x_tagGap; exact Hab|exact (IH Hs)].
Qed.

Lemma below_none (gaps : list V110.Gap) : below gaps (fun _ => false).
Proof. intros g _ i _. reflexivity. Qed.

Lemma expand_start (l : list Point) : expand delta (fun _ => false) l = l.
Proof. apply expand_none. reflexivity. Qed.

Lemma scannedFrom_lookup (ss : list Series) :
  forall (k i : nat),
  scannedFrom k ss !! i = scanned (k + i) <$> ss !! i.
Proof.
  induction ss as [|s ss IH]; intros k i; [reflexivity|].
  destruct i as [|i]; simpl.
  - rewrite Nat.add_0_r. reflexivity.
  - rewrite IH. do 2 f_equal. lia.
Qed.

Lemma fixSeries_unfold (series : list Series) :
  exists gaps,
    V110.fixSeries delta series =
      V110.fixAll delta gaps (scannedFrom O series)
    /\ descending (map V110.index gaps)
    /\ forall j, member gaps j = true <->
                 exists s, In s series /\ null_at (data s) j.
Proof.
  destruct (scan_spec series) as (gaps & E & Hd & Hm).
  exists gaps. unfold V110.fixSeries. rewrite E. auto.
Qed.

(** Each series of the store a call leaves is the scanned series, either
    untouched or with the array the rewrite loop left. *)
Lemma fixSeries_lookup (series : list Series) (i : nat) (s : Series) :
  series !! i = Some s ->
  exists gaps s',
    store_of (V110.fixSeries delta series) !! i = Some s'
    /\ id s' = Some (V110.assignId i s)
    /\ descending (map V110.index gaps)
    /\ (data s' = map tagGap (data s) \/
        data s' =
          store_of (V110.fixGaps delta gaps (map tagGap (data s)))).
Proof.
  intros Hs. destruct (fixSeries_unfold series) as (gaps & -> & Hd & _).
  exists gaps.
  pose proof (fixAll_store delta gaps (scannedFrom O series)) as HF.
  assert (Hsc : scannedFrom O series !! i = Some (scanned i s))
    by (rewrite scannedFrom_lookup, Hs; reflexivity).
  destruct (Forall2_lookup_l _ _ _ _ _ HF Hsc) as (s' & Hs' & Hcase).
  exists s'. split; [exact Hs'|].
  destruct Hcase as [->| ->]; simpl; auto.
Qed.

End Call.

Section Frame.

Variable delta : Z.

Lemma sublist_map {A B : Type} (f : A -> B) (l1 l2 : list A) :
  sublist l1 l2 -> sublist (map f l1) (map f l2).
Proof.
  induction 1; simpl; [constructor|apply sublist_skip|apply sublist_cons];
    assumption.
Qed.

Lemma map_coords_tagGap (l : list Point) :
  map coords (map tagGap l) = map coords l.
Proof.
  rewrite map_map. apply map_ext. exact coords_tagGap.
Qed.

Lemma scannedFrom_length (ss : list Series) :
  forall k, length (scannedFrom k ss) = length ss.
Proof. induction ss; intros k; simpl; [reflexivity|]. f_equal. auto. Qed.

Lemma fixSeries_length (series : list Series) :
  length (store_of (V110.fixSeries delta series)) = length series.
Proof.
  destruct (fixSeries_unfold delta series) as (gaps & -> & _).
  pose proof (fixAll_store delta gaps (scannedFrom O series)) as HF.
  apply Forall2_length in HF. rewrite <- HF. apply scannedFrom_length.
Qed.

(** The scanned points of a series stay in the array, in their order. *)
Lemma fixSeries_frame (series : list Series) (i : nat) (s : Series) :
  series !! i = Some s ->
  exists s',
    store_of (V110.fixSeries delta series) !! i = Some s'
    /\ id s' = Some (V110.assignId i s)
    /\ sublist (map tagGap (data s)) (data s').
Proof.
  intros Hs.
  destruct (fixSeries_lookup delta series i s Hs)
    as (gaps & s' & Hs' & Hid & _ & Hcase).
  exists s'. split; [exact Hs'|]. split; [exact Hid|].
  destruct Hcase as [-> | ->]; [reflexivity|apply fixGaps_sublist].
Qed.

End Frame.

(** ** A run of adjacent gaps in the described array *)

Section Runs.

Variable delta : Z.
Variable G : nat -> bool.

Lemma expandFrom_split (l1 l2 : list Point) (o : Point) :
  forall (k : nat) (prev : option Point),
  exists H,
    expandFrom delta G k prev (l1 ++ o :: l2) =
      H ++ expandFrom delta G (k + length l1) (last_or prev l1) (o :: l2).
Proof.
  induction l1 as [|a l1 IH]; intros k prev.
  - exists []. simpl. rewrite Nat.add_0_r. reflexivity.
  - destruct (IH (S k) (Some a)) as [H EH].
    exists (prevFix delta G k prev a ++
            a :: nextFix delta G k a (l1 ++ o :: l2) ++ H).
    simpl app. simpl expandFrom. rewrite EH, last_or_cons.
    rewrite <- !app_assoc. simpl. rewrite <- !app_assoc.
    replace (k + S (length l1))%nat with (S (k + length l1)) by lia.
    reflexivity.
Qed.



Lemma expandFrom_cons (k : nat) (prev : option Point) (o : Point)
  (rest : list Point) :
  expandFrom delta G k prev (o :: rest) =
    prevFix delta G k prev o ++
    o :: nextFix delta G k o rest ++ expandFrom delta G (S k) (Some o) rest.
Proof. reflexivity. Qed.





End Runs.

(** ** Throwing, and calling twice *)

Section Twice.

Variable delta : Z.


Lemma setData_data (s : Series) : setData s (data s) = s.
Proof. destruct s. reflexivity. Qed.

Lemma fixAll_no_gaps (ss : list Series) :
  V110.fixAll delta [] ss = Done ss.
Proof.
  induction ss as [|s ss IH]; simpl; [reflexivity|].
  rewrite IH, setData_data. reflexivity.
Qed.

Lemma member_nil (gaps : list V110.Gap) :
  (forall j, member gaps j = false) -> gaps = [].
Proof.
  destruct gaps as [|g gaps]; [reflexivity|]. intros H.
  specialize (H (V110.index g)). unfold member in H. simpl in H.
  rewrite Nat.eqb_refl in H. discriminate.
Qed.

Lemma gap_free_no_null (series : list Series) (s : Series) (j : nat) :
  gap_free series -> In s series -> ~ null_at (data s) j.
Proof.
  intros Hg Hs (p & Hp & Hn). unfold gap_free in Hg.
  rewrite Forall_forall in Hg. apply list_elem_of_In in Hs.
  specialize (Hg s Hs). rewrite Forall_lookup in Hg.
  rewrite (Hg j p Hp) in Hn. discriminate.
Qed.

Lemma map_tagGap_gap_free (l : list Point) :
  Forall (fun p => is_null p = false) l -> map tagGap l = l.
Proof.
  induction 1 as [|p l Hp _ IH]; simpl; [reflexivity|].
  unfold tagGap at 1. rewrite Hp, IH. reflexivity.
Qed.

(** Without a null point the call only assigns the ids. *)
Lemma fixSeries_gap_free (series : list Series) :
  gap_free series ->
  V110.fixSeries delta series = Done (scannedFrom O series).
Proof.
  intros Hg. destruct (fixSeries_unfold delta series) as (gaps & -> & _ & Hm).
  assert (gaps = []) as ->.
  { apply member_nil. intros j.
    destruct (member gaps j) eqn:E; [|reflexivity]. exfalso.
    apply Hm in E as (s & Hs & Hn).
    exact (gap_free_no_null series s j Hg Hs Hn). }
  apply fixAll_no_gaps.
Qed.

Lemma scannedFrom_again (series : list Series) :
  gap_free series ->
  forall k, scannedFrom k (scannedFrom k series) = scannedFrom k series
            /\ gap_free (scannedFrom k series).
Proof.
  induction 1 as [|s ss Hs _ IH]; intros k; simpl.
  - split; [reflexivity|constructor].
  - destruct (IH (S k)) as [E Hg]. split.
    + rewrite E. f_equal. unfold scanned. simpl.
      rewrite !(map_tagGap_gap_free _ Hs). reflexivity.
    + constructor; [|exact Hg]. simpl.
      rewrite (map_tagGap_gap_free _ Hs). exact Hs.
Qed.

Lemma sublist_same_length {A : Type} (l1 l2 : list A) :
  sublist l1 l2 -> (length l2 <= length l1)%nat -> l1 = l2.
Proof.
  induction 1 as [|a l1 l2 _ IH|a l1 l2 Hs _]; simpl; intros Hl.
  - reflexivity.
  - f_equal. apply IH. lia.
  - apply sublist_length in Hs. lia.
Qed.

(** A store that a call reproduces has every null point tagged ['gap']. *)
Lemma fixpoint_tagged (st : list Series) (s : Series) (p : Point) :
  store_of (V110.fixSeries delta st) = st ->
  In s st -> In p (data s) -> is_null p = true -> is_type "gap" p = true.
Proof.
  intros Hfix Hs Hp Hn.
  apply list_elem_of_In, list_elem_of_lookup in Hs as [i Hi].
  destruct (fixSeries_frame delta st i s Hi) as (s' & Hs' & _ & Hsub).
  rewrite Hfix in Hs'. assert (s' = s) by congruence. subst s'.
  apply sublist_same_length in Hsub; [|rewrite length_map; lia].
  pose proof (tagged_tagGap (data s)) as Ht. rewrite Hsub in Ht.
  unfold tagged in Ht. rewrite Forall_forall in Ht.
  apply Ht; [apply list_elem_of_In; exact Hp|exact Hn].
Qed.

Lemma first_null (l : list Point) :
  ~ Forall (fun p => is_null p = false) l ->
  exists pre o post,
    l = pre ++ o :: post
    /\ Forall (fun p => is_null p = false) pre
    /\ is_null o = true.
Proof.
  induction l as [|a l IH]; intros H.
  - exfalso. apply H. constructor.
  - destruct (is_null a) eqn:Ea.
    + exists [], a, l. split; [reflexivity|]. split; [constructor|exact Ea].
    + destruct IH as (pre & o & post & -> & Hpre & Ho).
      { intros Hl. apply H. constructor; assumption. }
      exists (a :: pre), o, post.
      split; [reflexivity|]. split; [constructor; assumption|exact Ho].
Qed.

(** On a raw input with a null point, a call that returns has put a null
    fix point into the store. *)
Lemma fixSeries_inserts (series out : list Series) :
  raw series -> ~ gap_free series ->
  V110.fixSeries delta series = Done out ->
  exists s p, In s out /\ In p (data s)
              /\ is_null p = true /\ type p = Some "gapfix".
Proof.
  intros Hraw Hng Hout.
  assert (Hex : exists i s, series !! i = Some s /\
                  ~ Forall (fun p => is_null p = false) (data s)).
  { clear Hraw Hout. induction series as [|s ss IH].
    - exfalso. apply Hng. constructor.
    - destruct (decide (Forall (fun p => is_null p = false) (data s)))
        as [Hs|Hs].
      + destruct IH as (i & s' & Hi & Hs').
        { intros Hg. apply Hng. constructor; assumption. }
        exists (S i), s'. split; assumption.
      + exists O, s. split; [reflexivity|exact Hs]. }
  destruct Hex as (i & s & Hs & Hnull).
  destruct (first_null (data s) Hnull) as (pre & o & post & Hdata & Hpre & Ho).
  destruct (fixSeries_unfold delta series) as (gaps & E & Hd & Hm).
  rewrite E in Hout. apply fixAll_Done in Hout.
  assert (Hsc : scannedFrom O series !! i = Some (scanned i s))
    by (rewrite scannedFrom_lookup, Hs; reflexivity).
  destruct (Forall2_lookup_l _ _ _ _ _ Hout Hsc) as (s' & Hs' & d & Hfix & ->).
  simpl in Hfix. rewrite <- (expand_start delta (map tagGap (data s))) in Hfix.
  apply fixGaps_Done in Hfix as [-> Hall];
    [|apply tagged_tagGap|exact Hd|apply below_none].
  assert (Hin : In s series)
    by (apply list_elem_of_In; eapply list_elem_of_lookup_2; exact Hs).
  assert (Hmem : member gaps (length pre) = true).
  { apply Hm. exists s. split; [exact Hin|]. exists o. split; [|exact Ho].
    rewrite Hdata. apply lookup_at. reflexivity. }
  assert (Hpos : (1 <= length pre)%nat).
  { apply member_In, in_map_iff in Hmem as (g & Eg & Hg).
    rewrite Forall_forall in Hall. apply list_elem_of_In in Hg.
    specialize (Hall g Hg). lia. }
  destruct (last pre) as [a|] eqn:El;
    [|apply last_None in El; subst pre; simpl in Hpos; lia].
  apply last_Some in El as [pre0 ->].
  assert (Ha : is_null a = false).
  { apply Forall_app in Hpre as [_ Hpre].
    apply Forall_cons in Hpre as [Ha _]. exact Ha. }
  assert (Hta : type a = None).
  { unfold raw in Hraw. rewrite Forall_forall in Hraw.
    apply list_elem_of_In in Hin. specialize (Hraw s Hin).
    rewrite Hdata in Hraw. apply Forall_app in Hraw as [Hraw _].
    apply Forall_app in Hraw as [_ Hraw].
    apply Forall_cons in Hraw as [Hraw _]. exact Hraw. }
  set (G := fun j => member gaps j || false).
  set (f := V110.createGapFixPoint (x a + delta) None).
  exists (setData (scanned i s) (expand delta G (map tagGap (data s)))), f.
  split; [apply list_elem_of_In; eapply list_elem_of_lookup_2; exact Hs'|].
  split; [|split; reflexivity].
  simpl. rewrite Hdata, !map_app. simpl.
  destruct (expandFrom_split delta G (map tagGap pre0 ++ [tagGap a])
              (map tagGap post) (tagGap o) O None) as [H EH].
  unfold expand. rewrite EH, last_or_snoc, expandFrom_cons.
  assert (Epf : prevFix delta G
                  (0 + length (map tagGap pre0 ++ [tagGap a]))
                  (Some (tagGap a)) (tagGap o) = [f]).
  { unfold prevFix. simpl Nat.add.
    replace (length (map tagGap pre0 ++ [tagGap a]))
      with (length (pre0 ++ [a]))
      by (rewrite !length_app, length_map; reflexivity).
    unfold G at 1. rewrite Hmem. simpl orb. cbv iota.
    unfold fixBefore, boundary, tagGap. rewrite Ha, Ho.
    unfold is_type. rewrite Hta. unfold is_null in Ha.
    destruct (y a) as [v|] eqn:Ey; [|discriminate].
    change (is_null (setType "gap" o)) with (is_null o). rewrite Ho.
    reflexivity. }
  rewrite Epf. apply in_or_app. right. left. reflexivity.
Qed.

End Twice.

(** ** When the call returns *)

Section Returns.

Variable delta : Z.

Lemma scannedFrom_In (ss : list Series) (s1 : Series) :
  forall k, In s1 (scannedFrom k ss) ->
  exists j s, In s ss /\ s1 = scanned j s.
Proof.
  induction ss as [|s ss IH]; intros k; simpl; [tauto|].
  intros [<-|H]; [eauto|]. destruct (IH _ H) as (j & s' & Hs' & ->). eauto.
Qed.

Lemma fixSeries_returns (series : list Series) :
  gaps_inside series ->
  exists out, V110.fixSeries delta series = Done out.
Proof.
  intros Hin. destruct (fixSeries_unfold delta series) as (gaps & -> & Hd & Hm).
  apply fixAll_returns. apply Forall_forall. intros s1 Hs1.
  apply list_elem_of_In, scannedFrom_In in Hs1 as (k & s & Hs & ->). simpl.
  rewrite <- (expand_start delta (map tagGap (data s))).
  eexists. apply fixGaps_returns;
    [apply tagged_tagGap|exact Hd|apply below_none|].
  apply Forall_forall. intros g Hg. rewrite length_map.
  assert (Hmem : member gaps (V110.index g) = true).
  { apply member_In, in_map. apply list_elem_of_In. exact Hg. }
  apply Hm in Hmem as (s0 & Hs0 & Hn).
  destruct (Hin s0 _ Hs0 Hn) as [H1 H2]. split; [exact H1|exact (H2 s Hs)].
Qed.

Lemma fixSeries_Done_inside (series out : list Series) :
  V110.fixSeries delta series = Done out -> gaps_inside series.
Proof.
  intros Hout s j Hs Hn.
  destruct (fixSeries_unfold delta series) as (gaps & E & Hd & Hm).
  rewrite E in Hout. apply fixAll_Done in Hout.
  assert (Hmem : member gaps j = true) by (apply Hm; eauto).
  apply member_In, in_map_iff in Hmem as (g & <- & Hg).
  assert (Hb : forall s', In s' series ->
            (1 <= V110.index g < length (data s'))%nat).
  { intros s' Hs'.
    apply list_elem_of_In, list_elem_of_lookup in Hs' as [k Hk].
    assert (Hsc : scannedFrom O series !! k = Some (scanned k s'))
      by (rewrite scannedFrom_lookup, Hk; reflexivity).
    destruct (Forall2_lookup_l _ _ _ _ _ Hout Hsc) as (s2 & _ & d & Hfix & _).
    simpl in Hfix.
    rewrite <- (expand_start delta (map tagGap (data s'))) in Hfix.
    apply fixGaps_Done in Hfix as [_ Hall];
      [|apply tagged_tagGap|exact Hd|apply below_none].
    rewrite Forall_forall in Hall. apply list_elem_of_In in Hg.
    specialize (Hall g Hg). rewrite length_map in Hall. exact Hall. }
  split; [exact (proj1 (Hb s Hs))|]. intros s' Hs'. exact (proj2 (Hb s' Hs')).
Qed.

(** The store at the throw for a series that starts with a null point. *)
Lemma leading_gap_thrown :
  V110.fixSeries V110.fixTimeDistance [leading_gap] =
    TypeError [mkSeries (Some (IdNum 0))
                 [setType "gap" (pt 0 None); pt 10 (Some 5)]].
Proof. reflexivity. Qed.

End Returns.

(** ** Exact and rounded sums *)

Section Rounding.

Variable delta : Z.

Lemma double_exact (z : Z) : Z.abs z <= 2 ^ 53 -> double z = z.
Proof.
  intros H. unfold double. apply Z.leb_le in H. rewrite H. reflexivity.
Qed.

Lemma insertGapFix_Forall (Q : Point -> Prop) (d : list Point) (i : nat)
  (f : Point) :
  Forall Q d -> Q f -> Forall Q (store_of (V110.insertGapFix d i f)).
Proof.
  intros Hd Hf. unfold V110.insertGapFix.
  destruct (d !! i) as [p|]; simpl; [|exact Hd].
  destruct (is_type "gapfix" p); simpl; [exact Hd|].
  unfold splice. apply Forall_app. split; [apply Forall_take; exact Hd|].
  constructor; [exact Hf|apply Forall_drop; exact Hd].
Qed.

Lemma fixGap_Forall (Q : Point -> Prop) (g : nat) (d : list Point) :
  Forall Q d -> (forall px py, Q (V110.createGapFixPoint px py)) ->
  Forall Q (store_of (V110.fixGap delta g d)).
Proof.
  intros Hd HQ. unfold V110.fixGap.
  destruct (V110.getPrev d g) as [|prev]; [exact Hd|].
  destruct (d !! g) as [p|]; [|exact Hd].
  set (next := V110.getNext d g).
  assert (Hn : forall f, (forall n, Q (f n)) -> Forall Q (store_of
            match next with
            | Some n => V110.insertGapFix d (S g) (f n)
            | None => Done d
            end)).
  { intros f Hf. destruct next; [apply insertGapFix_Forall; auto|exact Hd]. }
  specialize (Hn (fun n => V110.createGapFixPoint (V110.bx n - delta)
                    (if is_null p then None else Some (V110.by_ n)))
                 (fun n => HQ _ _)).
  cbv beta in Hn.
  destruct (match next with Some n => _ | None => _ end) as [d1|d1];
    simpl in Hn; [|exact Hn].
  destruct prev as [pv|]; [|exact Hn].
  apply insertGapFix_Forall; [exact Hn|apply HQ].
Qed.

Lemma fixGaps_Forall (Q : Point -> Prop) (gaps : list V110.Gap)
  (d : list Point) :
  Forall Q d -> (forall px py, Q (V110.createGapFixPoint px py)) ->
  Forall Q (store_of (V110.fixGaps delta gaps d)).
Proof.
  intros Hd HQ. revert d Hd.
  induction gaps as [|g gaps IH]; intros d Hd; simpl; [exact Hd|].
  pose proof (fixGap_Forall Q (V110.index g) d Hd HQ) as H.
  destruct (V110.fixGap delta (V110.index g) d) as [d1|d1]; simpl in *.
  - apply IH. exact H.
  - exact H.
Qed.

Lemma getPrev_lookup (d : list Point) (g : nat) (b : V110.Boundary) :
  V110.getPrev d g = inr (Some b) ->
  exists j p, (j < g)%nat /\ d !! j = Some p /\ x p = V110.bx b.
Proof.
  induction g as [|g IH]; simpl; [discriminate|].
  destruct (d !! g) as [p|] eqn:Ep; [|discriminate].
  destruct (is_type "gap" p); [discriminate|].
  destruct (y p) as [v|].
  - intros [= <-]. exists g, p. simpl. auto.
  - intros H. destruct (IH H) as (j & q & Hj & Hq & Hx).
    exists j, q. split; [lia|auto].
Qed.

Lemma insertGapFix_low (d d' : list Point) (i j : nat) (f : Point) :
  V110.insertGapFix d i f = Done d' -> (j < i)%nat -> d' !! j = d !! j.
Proof.
  unfold V110.insertGapFix. destruct (d !! i) as [q|] eqn:Eq; [|discriminate].
  apply lookup_lt_Some in Eq.
  destruct (is_type "gapfix" q); intros [= <-] Hj; [reflexivity|].
  unfold splice. rewrite lookup_app_l by (rewrite length_take; lia).
  apply lookup_take_lt. lia.
Qed.

(** A round leaves the positions below its gap as they are. *)
Lemma fixGap_low (g j : nat) (d d' : list Point) :
  V110.fixGap delta g d = Done d' -> (j < g)%nat -> d' !! j = d !! j.
Proof.
  unfold V110.fixGap.
  destruct (V110.getPrev d g) as [|prev]; [discriminate|].
  destruct (d !! g) as [p|]; [|discriminate].
  intros H Hj.
  assert (H1 : exists d1,
    match V110.getNext d g with
    | Some n =>
        V110.insertGapFix d (S g)
          (V110.createGapFixPoint (V110.bx n - delta)
             (if is_null p then None else Some (V110.by_ n)))
    | None => Done d
    end = Done d1 /\
    match prev with
    | Some pv =>
        V110.insertGapFix d1 g
          (V110.createGapFixPoint (V110.bx pv + delta)
             (if is_null p then None else Some (V110.by_ pv)))
    | None => Done d1
    end = Done d').
  { destruct (match V110.getNext d g with Some n => _ | None => _ end)
      as [d1|d1]; [eauto|discriminate]. }
  destruct H1 as (d1 & E1 & E2).
  assert (Hd1 : d1 !! j = d !! j).
  { destruct (V110.getNext d g) as [n|].
    - eapply insertGapFix_low; [exact E1|lia].
    - injection E1 as <-. reflexivity. }
  rewrite <- Hd1. destruct prev as [pv|].
  - eapply insertGapFix_low; [exact E2|exact Hj].
  - injection E2 as <-. reflexivity.
Qed.

(** On an array whose boundaries have exact sums, a round computes the same
    with rounded sums: the point in front comes from below the gap, and the
    point behind is either the next one, with exact sums, or the slot behind
    the gap holds a synthetic point and nothing is inserted there. *)
Lemma fixGap_exact (g : nat) (d : list Point) :
  (forall j p, (j < g)%nat -> d !! j = Some p -> safe delta p) ->
  Forall (fix_or_safe delta) d ->
  V110.Float.fixGap delta g d = V110.fixGap delta g d.
Proof.
  intros Hlow HQ. unfold V110.Float.fixGap, V110.fixGap.
  destruct (V110.getPrev d g) as [|prev] eqn:Eprev; [reflexivity|].
  destruct (d !! g) as [p|] eqn:Ep; [|reflexivity].
  cbv zeta.
  assert (Hnext : forall n, V110.getNext d g = Some n ->
            double (V110.bx n - delta) = V110.bx n - delta
            \/ forall f, V110.insertGapFix d (S g) f = Done d).
  { intros n En. unfold V110.getNext in En.
    destruct (drop (S g) d) as [|t T] eqn:Ed; [discriminate|].
    assert (Ht : d !! S g = Some t).
    { pose proof (lookup_drop d (S g) 0) as H. rewrite Ed in H.
      rewrite Nat.add_0_r in H. symmetry. exact H. }
    destruct (is_type "gapfix" t) eqn:Eg.
    - right. intros f. unfold V110.insertGapFix. rewrite Ht, Eg. reflexivity.
    - left. rewrite Forall_lookup in HQ.
      destruct (HQ (S g) t Ht) as [Hg|[Hs Htag]]; [congruence|].
      simpl in En. destruct (is_type "gap" t) eqn:Egap; [discriminate|].
      destruct (y t) as [v|] eqn:Ey.
      + injection En as <-. simpl. apply double_exact.
        unfold safe in Hs. lia.
      + assert (Hn : is_null t = true)
          by (unfold is_null; rewrite Ey; reflexivity).
        specialize (Htag Hn). congruence. }
  assert (Hprev : forall pv, prev = Some pv ->
            double (V110.bx pv + delta) = V110.bx pv + delta).
  { intros pv ->.
    destruct (getPrev_lookup _ _ _ Eprev) as (j & q & Hj & Hq & Hx).
    apply double_exact. specialize (Hlow j q Hj Hq).
    unfold safe in Hlow. lia. }
  destruct (V110.getNext d g) as [n|].
  - destruct (Hnext n eq_refl) as [E|Hskip].
    + rewrite E.
      destruct (V110.insertGapFix d (S g) _) as [d1|d1]; [|reflexivity].
      destruct prev as [pv|]; [|reflexivity].
      rewrite (Hprev pv eq_refl). reflexivity.
    + rewrite !Hskip.
      destruct prev as [pv|]; [|reflexivity].
      rewrite (Hprev pv eq_refl). reflexivity.
  - destruct prev as [pv|]; [|reflexivity].
    rewrite (Hprev pv eq_refl). reflexivity.
Qed.

(** The rewrite loop of one array: the gaps come in descending order, so
    the positions below the next gap still hold original points. *)
Lemma fixGaps_exact (gaps : list V110.Gap) :
  descending (map V110.index gaps) ->
  forall d,
  (forall g0, head gaps = Some g0 ->
   forall j p, (j < V110.index g0)%nat -> d !! j = Some p -> safe delta p) ->
  Forall (fix_or_safe delta) d ->
  V110.Float.fixGaps delta gaps d = V110.fixGaps delta gaps d.
Proof.
  induction gaps as [|g gaps IH]; intros Hd d Hlow HQ; simpl; [reflexivity|].
  rewrite (fixGap_exact (V110.index g) d (Hlow g eq_refl) HQ).
  destruct (V110.fixGap delta (V110.index g) d) as [d1|d1] eqn:E;
    [|reflexivity].
  apply IH.
  - destruct gaps; [exact I|]. destruct Hd as [_ Hd]. exact Hd.
  - intros g0 Hg0 j p Hj Hp.
    destruct gaps as [|g' gaps']; [discriminate|]. injection Hg0 as <-.
    destruct Hd as [Hlt _].
    rewrite (fixGap_low _ j _ _ E) in Hp by lia.
    apply (Hlow g eq_refl j p); [lia|exact Hp].
  - pose proof (fixGap_Forall (fix_or_safe delta) (V110.index g) d HQ) as H.
    rewrite E in H. apply H. intros px py. left. reflexivity.
Qed.

Lemma fixAll_exact (gaps : list V110.Gap) (ss : list Series) :
  descending (map V110.index gaps) ->
  Forall (fun s => Forall (safe delta) (data s) /\ tagged (data s)) ss ->
  V110.Float.fixAll delta gaps ss = V110.fixAll delta gaps ss.
Proof.
  intros Hd. induction 1 as [|s ss [Hs Ht] _ IH]; simpl; [reflexivity|].
  rewrite (fixGaps_exact gaps Hd (data s)), IH; [reflexivity| |].
  - intros g0 _ j p _ Hp. rewrite Forall_lookup in Hs. exact (Hs j p Hp).
  - unfold tagged in Ht. rewrite Forall_forall in Hs, Ht |- *.
    intros p Hp. right. split; [exact (Hs p Hp)|exact (Ht p Hp)].
Qed.

Lemma safe_tagGap (l : list Point) :
  Forall (safe delta) l -> Forall (safe delta) (map tagGap l).
Proof.
  intros H. apply Forall_map. eapply Forall_impl; [exact H|].
  intros p Hp. unfold safe. rewrite x_tagGap. exact Hp.
Qed.

(** With every [x] of the input in the safe range, the call with rounded
    sums is the call with exact sums. *)
Lemma fixSeries_exact (series : list Series) :
  Forall (fun s => Forall (safe delta) (data s)) series ->
  V110.Float.fixSeries delta series = V110.fixSeries delta series.
Proof.
  intros Hs. unfold V110.Float.fixSeries, V110.fixSeries.
  destruct (scan_spec series) as (gaps & -> & Hd & _).
  apply fixAll_exact; [exact Hd|].
  apply Forall_forall. intros s1 Hs1.
  apply list_elem_of_In, scannedFrom_In in Hs1 as (k & s & Hin & ->). simpl.
  split; [|apply tagged_tagGap].
  apply safe_tagGap. rewrite Forall_forall in Hs. apply Hs.
  apply list_elem_of_In. exact Hin.
Qed.

(** Strict growth after the call with exact sums. *)
Lemma fixSeries_increasing (series : list Series) :
  0 < delta ->
  Forall (fun s => spaced delta (data s)) series ->
  Forall (fun s => increasing (xs (data s)))
    (store_of (V110.fixSeries delta series)).
Proof.
  intros Hpos Hsp. apply Forall_lookup. intros i s' Hs'.
  assert (Hlen : exists s, series !! i = Some s).
  { destruct (fixSeries_unfold delta series) as (gaps & E & _).
    rewrite E in Hs'.
    pose proof (fixAll_store delta gaps (scannedFrom O series)) as HF.
    destruct (Forall2_lookup_r _ _ _ _ _ HF Hs') as (s1 & Hs1 & _).
    rewrite scannedFrom_lookup in Hs1.
    destruct (series !! i) as [s|]; [eauto|discriminate]. }
  destruct Hlen as [s Hs].
  destruct (fixSeries_lookup delta series i s Hs)
    as (gaps & s2 & Hs2 & _ & Hd & Hcase).
  assert (s2 = s') by congruence. subst s2.
  assert (Hss : spaced delta (map tagGap (data s))).
  { apply spaced_tagGap. rewrite Forall_lookup in Hsp. exact (Hsp i s Hs). }
  destruct Hcase as [-> | ->].
  - rewrite <- (expand_start delta (map tagGap (data s))).
    apply expand_increasing; assumption.
  - rewrite <- (expand_start delta (map tagGap (data s))).
    destruct (fixGaps_store delta (map tagGap (data s)) gaps
                (tagged_tagGap _) (fun _ => false) Hd (below_none gaps))
      as [G' ->].
    apply expand_increasing; assumption.
Qed.

End Rounding.

(** * The claims *)

(** C1: on the header example with fix distance 1, every series gets one fix
    point on each side of the gap position: [s1] two fix points of value 1,
    [s2] two fix points of value null at the same [x], seven points each.
    The fix points are written out: [x = 2] on both sides (1 + 1 and 3 - 1),
    the tag ['gapfix'] and the disabled marker.  With the distance 1000 of
    the source the counts are the same.  Version 1.0.0, whose distance is
    the literal 1, inserts at the same places (it tags its synthetic points
    ['gap'] and does not tag the null point). *)
Theorem C1_asymmetric_series :
  V110.fixSeries 1 [s1; s2] =
    Done [mkSeries (Some (IdNum 0))
            [mkPoint 0 (Some 1) None None;
             mkPoint 1 (Some 1) None None;
             mkPoint 2 (Some 1) (Some "gapfix") (Some (mkMarker false false));
             mkPoint 2 (Some 1) None None;
             mkPoint 2 (Some 1) (Some "gapfix") (Some (mkMarker false false));
             mkPoint 3 (Some 1) None None;
             mkPoint 4 (Some 1) None None];
          mkSeries (Some (IdNum 1))
            [mkPoint 0 (Some 2) None None;
             mkPoint 1 (Some 2) None None;
             mkPoint 2 None (Some "gapfix") (Some (mkMarker false false));
             mkPoint 2 None (Some "gap") None;
             mkPoint 2 None (Some "gapfix") (Some (mkMarker false false));
             mkPoint 3 (Some 2) None None;
             mkPoint 4 (Some 2) None None]]
  /\ Forall (fun s => length (data s) = 7%nat)
       (store_of (V110.fixSeries 1 [s1; s2]))
  /\ Forall (fun s => length (data s) = 7%nat)
       (store_of (V110.fixSeries V110.fixTimeDistance [s1; s2]))
  /\ V100.fixSeries [s1; s2] =
       [mkSeries (Some (IdNum 0))
          [mkPoint 0 (Some 1) None None;
           mkPoint 1 (Some 1) None None;
           mkPoint 2 (Some 1) (Some "gap") (Some (mkMarker false false));
           mkPoint 2 (Some 1) None None;
           mkPoint 2 (Some 1) (Some "gap") (Some (mkMarker false false));
           mkPoint 3 (Some 1) None None;
           mkPoint 4 (Some 1) None None];
        mkSeries (Some (IdNum 1))
          [mkPoint 0 (Some 2) None None;
           mkPoint 1 (Some 2) None None;
           mkPoint 2 None (Some "gap") (Some (mkMarker false false));
           mkPoint 2 None None None;
           mkPoint 2 None (Some "gap") (Some (mkMarker false false));
           mkPoint 3 (Some 2) None None;
           mkPoint 4 (Some 2) None None]].
Proof.
  split; [reflexivity|]. split; [repeat constructor|].
  split; [repeat constructor|reflexivity].
Qed.

(** C2, as stated, fails: the fix distance is added and subtracted in
    doubles.  From [2^63] on, neighbouring doubles are 2048 apart, so with
    the distance 1000 of the source [2^63 + 1000] is [2^63] again and
    [2^63 + 4096 - 1000] is [2^63 + 4096].  The input is strictly increasing
    with its points more than 1000 apart, and the output has two [x] values
    twice. *)
Lemma C2_large_x_counterexample :
  Forall (fun s => spaced V110.fixTimeDistance (data s)) far_out
  /\ Forall (fun s => increasing (xs (data s))) far_out
  /\ V110.Float.fixSeries V110.fixTimeDistance far_out =
       Done [mkSeries (Some (IdNum 0))
               [mkPoint (2 ^ 63) (Some 1) None None;
                mkPoint (2 ^ 63) None (Some "gapfix")
                  (Some (mkMarker false false));
                mkPoint (2 ^ 63 + 2048) None (Some "gap") None;
                mkPoint (2 ^ 63 + 4096) None (Some "gapfix")
                  (Some (mkMarker false false));
                mkPoint (2 ^ 63 + 4096) (Some 1) None None]]
  /\ ~ Forall (fun s => increasing (xs (data s)))
         (store_of (V110.Float.fixSeries V110.fixTimeDistance far_out)).
Proof.
  split; [repeat constructor; vm_compute; reflexivity|].
  split; [repeat constructor; vm_compute; reflexivity|].
  split; [vm_compute; reflexivity|].
  intros H. apply Forall_cons in H as [H _]. vm_compute in H.
  destruct H as [H _]. discriminate H.
Qed.

(** C2, amended: when every [x] of the input keeps [x + delta] and
    [x - delta] within [2^53], consecutive points of every series are more
    than the fix distance apart, and the distance is positive, every series
    of the store a call leaves has strictly increasing [x]: each fix point
    lies strictly between its neighbours and no [x] occurs twice.  This
    holds whether the call returns or throws, and is stated for the call
    with the sums rounded to doubles. *)
Theorem C2_monotonicity_preserved (delta : Z) (series : list Series) :
  0 < delta ->
  Forall (fun s => Forall (safe delta) (data s)) series ->
  Forall (fun s => spaced delta (data s)) series ->
  Forall (fun s => increasing (xs (data s)))
    (store_of (V110.Float.fixSeries delta series)).
Proof.
  intros Hpos Hsafe Hsp. rewrite (fixSeries_exact delta series Hsafe).
  apply fixSeries_increasing; assumption.
Qed.

Lemma C2_monotonicity_witness :
  0 < 1
  /\ Forall (fun s => Forall (safe 1) (data s))
       [isolated None 15; isolated None 16]
  /\ Forall (fun s => spaced 1 (data s)) [isolated None 15; isolated None 16]
  /\ Forall (fun s => increasing (xs (data s)))
       (store_of (V110.Float.fixSeries 1
                    [isolated None 15; isolated None 16])).
Proof.
  assert (H0 : 0 < 1) by lia.
  assert (H1 : Forall (fun s => Forall (safe 1) (data s))
                 [isolated None 15; isolated None 16])
    by (repeat constructor; unfold safe; simpl; lia).
  assert (H2 : Forall (fun s => spaced 1 (data s))
                 [isolated None 15; isolated None 16]).
  { constructor; [simpl; lia|]. constructor; [simpl; lia|]. constructor. }
  split; [exact H0|]. split; [exact H1|]. split; [exact H2|].
  exact (C2_monotonicity_preserved 1 _ H0 H1 H2).
Defined.

(** C3: every point a series had before the call is still there afterwards,
    in the same order and with the same [x] and [y]: the coordinates of the
    original points form a subsequence of the coordinates after the call, so
    the call only inserts points. *)
Theorem C3_original_points_kept (delta : Z) (series : list Series) :
  Forall2
    (fun s s' => sublist (map coords (data s)) (map coords (data s')))
    series (store_of (V110.fixSeries delta series)).
Proof.
  apply Forall2_same_length_lookup_2.
  - symmetry. apply fixSeries_length.
  - intros i s s' Hs Hs'.
    destruct (fixSeries_frame delta series i s Hs) as (s2 & Hs2 & _ & Hsub).
    assert (s2 = s') by congruence. subst s2.
    rewrite <- (map_coords_tagGap (data s)).
    apply sublist_map. exact Hsub.
Qed.

(** C4: a null point at index 0 of any series.  [getPrev] decrements before
    it reads, so for that gap it reads [data[-1]] and the call throws a
    TypeError instead of skipping the predecessor side. *)
Theorem C4_gap_at_index_0_throws (delta : Z) (series : list Series)
  (s : Series) :
  In s series -> null_at (data s) 0 ->
  exists st, V110.fixSeries delta series = TypeError st.
Proof.
  intros Hs Hn.
  destruct (fixSeries_unfold delta series) as (gaps & E & Hd & Hm).
  rewrite E.
  destruct (V110.fixAll delta gaps (scannedFrom O series)) as [out|st] eqn:EA;
    [|eauto].
  exfalso. apply fixAll_Done in EA.
  destruct series as [|s0 ss]; [destruct Hs|].
  simpl in EA.
  apply Forall2_cons_inv_l in EA as (s' & out' & (d & Hfix & _) & _).
  simpl in Hfix.
  rewrite <- (expand_start delta (map tagGap (data s0))) in Hfix.
  apply fixGaps_Done in Hfix as [_ Hall];
    [|apply tagged_tagGap|exact Hd|apply below_none].
  assert (Hmem : member gaps 0 = true) by (apply Hm; eauto).
  apply member_In, in_map_iff in Hmem as (g & Eg & Hg).
  rewrite Forall_forall in Hall. apply list_elem_of_In in Hg.
  specialize (Hall g Hg). lia.
Qed.

Lemma C4_gap_at_index_0_witness :
  In leading_gap [leading_gap]
  /\ null_at (data leading_gap) 0
  /\ exists st, V110.fixSeries 1 [leading_gap] = TypeError st.
Proof.
  assert (H1 : In leading_gap [leading_gap]) by (left; reflexivity).
  assert (H2 : null_at (data leading_gap) 0)
    by (exists (pt 0 None); split; reflexivity).
  split; [exact H1|]. split; [exact H2|].
  exact (C4_gap_at_index_0_throws 1 [leading_gap] leading_gap H1 H2).
Defined.


Lemma run_input_inside : gaps_inside run_input.
Proof.
  intros s j Hs (p & Hp & Hn).
  assert (Hj : j = 2%nat \/ j = 3%nat).
  { destruct Hs as [<-|[<-|[]]];
      do 6 (destruct j as [|j]; [simpl in Hp; injection Hp as <-;
                                 first [discriminate Hn|auto]|]);
      discriminate Hp. }
  split; [lia|]. intros s' [<-|[<-|[]]]; simpl; lia.
Defined.


(** C6, as stated, fails: a second call on the output of a first one tags
    the null fix points ['gap'] and inserts two more fix points. *)
Lemma C6_idempotence_counterexample :
  V110.fixSeries 1 [isolated None 15] = Done once
  /\ V110.fixSeries 1 once = Done twice
  /\ twice <> once.
Proof.
  split; [reflexivity|]. split; [reflexivity|]. discriminate.
Qed.

(** C6, amended: for a raw input on which the call returns, a second call
    on the output returns that output again exactly when the input has no
    null point.  When the input has a null point, the output of the first
    call holds a null point tagged ['gapfix'], and the second call leaves a
    store that differs from that output, whether it returns or throws. *)
Theorem C6_second_call (delta : Z) (series st : list Series) :
  raw series ->
  V110.fixSeries delta series = Done st ->
  (V110.fixSeries delta st = Done st <-> gap_free series)
  /\ (~ gap_free series ->
      (exists s p, In s st /\ In p (data s)
                   /\ y p = None /\ type p = Some "gapfix")
      /\ store_of (V110.fixSeries delta st) <> st).
Proof.
  intros Hraw Hst.
  assert (Hchanged : ~ gap_free series ->
            (exists s p, In s st /\ In p (data s)
                         /\ y p = None /\ type p = Some "gapfix")
            /\ store_of (V110.fixSeries delta st) <> st).
  { intros Hg.
    destruct (fixSeries_inserts delta series st Hraw Hg Hst)
      as (s & p & Hs & Hp & Hn & Ht).
    split.
    - exists s, p. split; [exact Hs|]. split; [exact Hp|].
      split; [|exact Ht]. unfold is_null in Hn.
      destruct (y p); [discriminate|reflexivity].
    - intros Hstore.
      pose proof (fixpoint_tagged delta st s p Hstore Hs Hp Hn) as Hgap.
      unfold is_type in Hgap. rewrite Ht in Hgap. discriminate. }
  split; [|exact Hchanged]. split.
  - intros Hfix. destruct (decide (gap_free series)) as [Hg|Hg]; [exact Hg|].
    exfalso. apply (proj2 (Hchanged Hg)). rewrite Hfix. reflexivity.
  - intros Hg. rewrite (fixSeries_gap_free delta series Hg) in Hst.
    injection Hst as <-.
    destruct (scannedFrom_again series Hg O) as [E Hg'].
    rewrite (fixSeries_gap_free delta _ Hg'), E. reflexivity.
Qed.

Lemma C6_second_call_witness :
  raw [isolated None 15]
  /\ V110.fixSeries 1 [isolated None 15] = Done once
  /\ (V110.fixSeries 1 once = Done once <-> gap_free [isolated None 15])
  /\ (~ gap_free [isolated None 15] ->
      (exists s p, In s once /\ In p (data s)
                   /\ y p = None /\ type p = Some "gapfix")
      /\ store_of (V110.fixSeries 1 once) <> once).
Proof.
  assert (H1 : raw [isolated None 15]) by (repeat constructor).
  assert (H2 : V110.fixSeries 1 [isolated None 15] = Done once)
    by reflexivity.
  split; [exact H1|]. split; [exact H2|].
  exact (C6_second_call 1 [isolated None 15] once H1 H2).
Defined.




(** C8: a gap shared by two series, between [(10, 5)] and [(20, 5)], expanded
    with fix distance 1: both series get the fix points [(11, null)] and
    [(19, null)], written out with their tag and disabled marker, and the
    gap point keeps its [x] and its null value (it is tagged ['gap']).  The
    single-series revision, applied to each of the two series, places the
    same two points (tagged ['fix']) and leaves the gap point as it is. *)
Theorem C8_gap_symmetry (xg : Z) (ida idb : option Id) :
  V110.fixSeries 1 [isolated ida xg; isolated idb xg] =
    Done [mkSeries (Some (match ida with
                          | Some v => v
                          | None => IdNum 0
                          end))
            [mkPoint 10 (Some 5) None None;
             mkPoint 11 None (Some "gapfix") (Some (mkMarker false false));
             mkPoint xg None (Some "gap") None;
             mkPoint 19 None (Some "gapfix") (Some (mkMarker false false));
             mkPoint 20 (Some 5) None None];
          mkSeries (Some (match idb with
                          | Some v => v
                          | None => IdNum 1
                          end))
            [mkPoint 10 (Some 5) None None;
             mkPoint 11 None (Some "gapfix") (Some (mkMarker false false));
             mkPoint xg None (Some "gap") None;
             mkPoint 19 None (Some "gapfix") (Some (mkMarker false false));
             mkPoint 20 (Some 5) None None]]
  /\ Single.fixSeries (isolated ida xg) =
       Some (mkSeries ida
               [mkPoint 10 (Some 5) None None;
                mkPoint 11 None (Some "fix") (Some (mkMarker false false));
                mkPoint xg None None None;
                mkPoint 19 None (Some "fix") (Some (mkMarker false false));
                mkPoint 20 (Some 5) None None])
  /\ Single.fixSeries (isolated idb xg) =
       Some (mkSeries idb
               [mkPoint 10 (Some 5) None None;
                mkPoint 11 None (Some "fix") (Some (mkMarker false false));
                mkPoint xg None None None;
                mkPoint 19 None (Some "fix") (Some (mkMarker false false));
                mkPoint 20 (Some 5) None None]).
Proof.
  split; [reflexivity|]. split; reflexivity.
Qed.

(** C9: on the empty list of series the call returns the empty list, and
    nothing is thrown. *)
Theorem C9_empty_input (delta : Z) :
  V110.fixSeries delta [] = Done [].
Proof.
  reflexivity.
Qed.

(** C10: besides inserting points, the call writes into the caller's
    objects, and the writes are in the store it leaves (on return and on a
    throw alike): the series at position [i] has an id afterwards, its own
    if it had one and [i] otherwise; and its original points are all still
    there, each with ['gap'] in its [type] field if its [y] is null and
    otherwise as it was. *)
Theorem C10_scan_writes_persist (delta : Z) (series : list Series)
  (i : nat) (s : Series) :
  series !! i = Some s ->
  exists s' originals,
    store_of (V110.fixSeries delta series) !! i = Some s'
    /\ id s' = Some (match id s with
                     | Some v => v
                     | None => IdNum (Z.of_nat i)
                     end)
    /\ sublist originals (data s')
    /\ Forall2
         (fun p p' =>
            x p' = x p /\ y p' = y p /\ marker p' = marker p /\
            type p' = if is_null p then Some "gap" else type p)
         (data s) originals.
Proof.
  intros Hs.
  destruct (fixSeries_frame delta series i s Hs) as (s' & Hs' & Hid & Hsub).
  exists s', (map tagGap (data s)).
  split; [exact Hs'|]. split; [exact Hid|]. split; [exact Hsub|].
  clear. induction (data s) as [|p l IH]; simpl; [constructor|].
  constructor; [|exact IH].
  unfold tagGap. destruct (is_null p); simpl; auto.
Qed.

Lemma C10_scan_writes_witness :
  [s1; s2] !! 1%nat = Some s2
  /\ exists s' originals,
       store_of (V110.fixSeries 1 [s1; s2]) !! 1%nat = Some s'
       /\ id s' = Some (IdNum 1)
       /\ sublist originals (data s')
       /\ Forall2
            (fun p p' =>
               x p' = x p /\ y p' = y p /\ marker p' = marker p /\
               type p' = if is_null p then Some "gap" else type p)
            (data s2) originals.
Proof.
  assert (H : [s1; s2] !! 1%nat = Some s2) by reflexivity.
  split; [exact H|].
  exact (C10_scan_writes_persist 1 [s1; s2] 1 s2 H).
Defined.

(** * Further properties *)

(** ** Version 1.1.0: helpers *)

Section More110.

Variable delta : Z.

Lemma fixSeries_scan (series : list Series) :
  V110.fixSeries delta series =
    V110.fixAll delta (snd (V110.scan series)) (scannedFrom O series)
  /\ fst (V110.scan series) = scannedFrom O series.
Proof.
  unfold V110.fixSeries. destruct (scan_spec series) as (gaps & -> & _).
  split; reflexivity.
Qed.

Lemma scan_gaps (series : list Series) :
  descending (map V110.index (snd (V110.scan series)))
  /\ forall j, member (snd (V110.scan series)) j = true <->
               exists s, In s series /\ null_at (data s) j.
Proof.
  destruct (scan_spec series) as (gaps & -> & Hd & Hm). split; assumption.
Qed.

Lemma insertGapFix_length (d : list Point) (i : nat) (f : Point) :
  (length (store_of (V110.insertGapFix d i f)) <= S (length d))%nat.
Proof.
  unfold V110.insertGapFix. destruct (d !! i) as [p|]; simpl; [|lia].
  destruct (is_type "gapfix" p); simpl; [lia|].
  unfold splice. rewrite length_app. simpl.
  rewrite length_take, length_drop. lia.
Qed.

Lemma fixGap_length (g : nat) (d : list Point) :
  (length (store_of (V110.fixGap delta g d)) <= 2 + length d)%nat.
Proof.
  unfold V110.fixGap.
  destruct (V110.getPrev d g) as [|prev]; [simpl; lia|].
  destruct (d !! g) as [p|]; [|simpl; lia].
  set (next := V110.getNext d g).
  assert (Hn : forall f, (length (store_of
            match next with
            | Some n => V110.insertGapFix d (S g) (f n)
            | None => Done d
            end) <= S (length d))%nat).
  { intros f. destruct next; [apply insertGapFix_length|simpl; lia]. }
  specialize (Hn (fun n => V110.createGapFixPoint (V110.bx n - delta)
                    (if is_null p then None else Some (V110.by_ n)))).
  cbv beta in Hn.
  destruct (match next with Some n => _ | None => _ end) as [d1|d1];
    simpl in Hn; [|simpl; lia].
  destruct prev as [pv|]; [|simpl; lia].
  match goal with |- context [V110.insertGapFix d1 g ?f] =>
    pose proof (insertGapFix_length d1 g f) end.
  lia.
Qed.

Lemma fixGaps_length (gaps : list V110.Gap) (d : list Point) :
  (length (store_of (V110.fixGaps delta gaps d))
   <= 2 * length gaps + length d)%nat.
Proof.
  revert d. induction gaps as [|g gaps IH]; intros d; simpl; [lia|].
  pose proof (fixGap_length (V110.index g) d) as H.
  destruct (V110.fixGap delta (V110.index g) d) as [d1|d1]; simpl in *.
  - specialize (IH d1). lia.
  - lia.
Qed.

(** Each series of the store, with the gaps of the scan named. *)
Lemma fixSeries_lookup_scan (series : list Series) (i : nat) (s : Series) :
  series !! i = Some s ->
  exists s',
    store_of (V110.fixSeries delta series) !! i = Some s'
    /\ (data s' = map tagGap (data s) \/
        data s' = store_of (V110.fixGaps delta (snd (V110.scan series))
                              (map tagGap (data s)))).
Proof.
  intros Hs. destruct (fixSeries_scan series) as [-> _].
  pose proof (fixAll_store delta (snd (V110.scan series))
                (scannedFrom O series)) as HF.
  assert (Hsc : scannedFrom O series !! i = Some (scanned i s))
    by (rewrite scannedFrom_lookup, Hs; reflexivity).
  destruct (Forall2_lookup_l _ _ _ _ _ HF Hsc) as (s' & Hs' & Hcase).
  exists s'. split; [exact Hs'|].
  destruct Hcase as [->| ->]; simpl; auto.
Qed.

End More110.

(** ** Version 1.1.0: the call as a whole *)

(** X1: the call returns exactly when every position holding a null point,
    in any series, is a position of every series and is not position 0; in
    every other case it throws a TypeError. *)
Theorem X1_returns_iff_gaps_inside (delta : Z) (series : list Series) :
  (exists out, V110.fixSeries delta series = Done out) <->
  gaps_inside series.
Proof.
  split.
  - intros [out H]. exact (fixSeries_Done_inside delta series out H).
  - apply fixSeries_returns.
Qed.

(** X2: the gaps the scan hands to the rewrite loop, after sorting and
    reversing: their indices are strictly descending (so none occurs twice),
    and they are exactly the positions at which some series has a null
    point. *)
Theorem X2_scan_collects_null_positions (series : list Series) :
  descending (map V110.index (snd (V110.scan series)))
  /\ forall j, In j (map V110.index (snd (V110.scan series))) <->
               exists s, In s series /\ null_at (data s) j.
Proof.
  destruct (scan_gaps series) as [Hd Hm]. split; [exact Hd|].
  intros j. rewrite <- member_In. apply Hm.
Qed.

(** X3: whatever the outcome, every point of a series after the call is
    either one of its points from before (tagged ['gap'] if null) or a
    synthetic point: its type is ['gapfix'] and its marker is the one with
    the marker and its hover state disabled. *)
Theorem X3_only_fix_points_inserted (delta : Z) (series : list Series) :
  Forall2
    (fun s s' => Forall (original_or_fix (data s)) (data s'))
    series (store_of (V110.fixSeries delta series)).
Proof.
  apply Forall2_same_length_lookup_2.
  - symmetry. apply fixSeries_length.
  - intros i s s' Hs Hs'.
    destruct (fixSeries_lookup_scan delta series i s Hs) as (s2 & Hs2 & Hc).
    assert (s2 = s') by congruence. subst s2.
    assert (H0 : Forall (original_or_fix (data s)) (map tagGap (data s))).
    { apply Forall_forall. intros p Hp. left. apply list_elem_of_In.
      exact Hp. }
    destruct Hc as [-> | ->]; [exact H0|].
    apply fixGaps_Forall; [exact H0|]. intros px py. right. eauto.
Qed.

(** X4: a call never shortens a series, and it adds at most two points to
    it for each position recorded by the scan. *)
Theorem X4_at_most_two_points_per_gap (delta : Z) (series : list Series) :
  Forall2
    (fun s s' =>
       (length (data s) <= length (data s')
        <= 2 * length (snd (V110.scan series)) + length (data s))%nat)
    series (store_of (V110.fixSeries delta series)).
Proof.
  apply Forall2_same_length_lookup_2.
  - symmetry. apply fixSeries_length.
  - intros i s s' Hs Hs'.
    destruct (fixSeries_lookup_scan delta series i s Hs) as (s2 & Hs2 & Hc).
    assert (s2 = s') by congruence. subst s2.
    destruct Hc as [-> | ->].
    + rewrite length_map. lia.
    + pose proof (fixGaps_length delta (snd (V110.scan series))
                    (map tagGap (data s))) as Hub.
      pose proof (sublist_length _ _
                    (fixGaps_sublist delta (snd (V110.scan series))
                       (map tagGap (data s)))) as Hlb.
      rewrite length_map in Hub, Hlb. lia.
Qed.



(** X6: when the call returns, the array it leaves for a series is the one
    a single pass from the left builds from the scanned points ([expand]):
    in front of the point at a recorded position there is a fix point
    exactly if the point before it is a boundary and the point itself is
    not tagged ['gapfix']; behind it there is one exactly if the next
    position gets none in front and the next point is a boundary not tagged
    ['gapfix']. *)
Theorem X6_rewrite_is_one_pass (delta : Z) (series : list Series)
  (i : nat) (s : Series) :
  gaps_inside series ->
  series !! i = Some s ->
  exists out s',
    V110.fixSeries delta series = Done out
    /\ out !! i = Some s'
    /\ data s' =
         expand delta (member (snd (V110.scan series)))
           (map tagGap (data s)).
Proof.
  intros Hin Hs.
  destruct (fixSeries_returns delta series Hin) as [out Hout].
  exists out. pose proof Hout as Hret.
  destruct (fixSeries_scan delta series) as [E _]. rewrite E in Hout.
  apply fixAll_Done in Hout.
  assert (Hsc : scannedFrom O series !! i = Some (scanned i s))
    by (rewrite scannedFrom_lookup, Hs; reflexivity).
  destruct (Forall2_lookup_l _ _ _ _ _ Hout Hsc) as (s' & Hs' & d & Hfix & ->).
  exists (setData (scanned i s) d).
  split; [exact Hret|]. split; [exact Hs'|]. simpl. simpl in Hfix.
  rewrite <- (expand_start delta (map tagGap (data s))) in Hfix.
  apply fixGaps_Done in Hfix as [-> _];
    [|apply tagged_tagGap|exact (proj1 (scan_gaps series))|apply below_none].
  apply expandFrom_ext. intros j _. apply orb_false_r.
Qed.

Lemma X6_rewrite_is_one_pass_witness :
  gaps_inside run_input
  /\ run_input !! 1%nat = Some run_series
  /\ exists out s',
       V110.fixSeries 1 run_input = Done out
       /\ out !! 1%nat = Some s'
       /\ data s' =
            expand 1 (member (snd (V110.scan run_input)))
              (map tagGap (data run_series)).
Proof.
  assert (H : run_input !! 1%nat = Some run_series) by reflexivity.
  split; [exact run_input_inside|]. split; [exact H|].
  exact (X6_rewrite_is_one_pass 1 run_input 1 run_series
           run_input_inside H).
Defined.

(** ** Version 1.1.0: shapes of the output *)

Section Shapes.

Variable delta : Z.
Variable G : nat -> bool.


Lemma no_adjacent_cons (a : Point) (l : list Point) :
  is_type "gapfix" a = false -> no_adjacent_fix l -> no_adjacent_fix (a :: l).
Proof.
  intros Ha Hl. destruct l as [|b l]; [exact I|].
  split; [rewrite Ha; reflexivity|exact Hl].
Qed.

Lemma no_adjacent_before (f a : Point) (l : list Point) :
  is_type "gapfix" a = false -> no_adjacent_fix (a :: l) ->
  no_adjacent_fix (f :: a :: l).
Proof.
  intros Ha Hl. split; [rewrite Ha; apply andb_false_r|exact Hl].
Qed.

(** Points that are not tagged ['gapfix'] never get two fix points between
    them. *)
Lemma expandFrom_no_adjacent (l : list Point) :
  Forall (fun p => is_type "gapfix" p = false) l ->
  forall (k : nat) (prev : option Point),
  no_adjacent_fix (expandFrom delta G k prev l).
Proof.
  induction 1 as [|o rest Ho Hrest IH]; intros k prev; [exact I|].
  rewrite expandFrom_cons.
  assert (Hmid : no_adjacent_fix
            (o :: nextFix delta G k o rest ++
                  expandFrom delta G (S k) (Some o) rest)).
  { destruct (nextFix_cases delta G k o rest)
      as [->|(n & rest' & py & -> & E & ->)].
    - apply no_adjacent_cons; [exact Ho|apply IH].
    - specialize (IH (S k) (Some o)). rewrite expandFrom_cons, E in IH.
      rewrite expandFrom_cons, E. simpl app in *.
      apply Forall_cons in Hrest as [Hn _].
      apply no_adjacent_cons; [exact Ho|].
      apply no_adjacent_before; [exact Hn|exact IH]. }
  destruct (prevFix_cases delta G k prev o) as [->|(a & py & _ & ->)].
  - exact Hmid.
  - apply no_adjacent_before; [exact Ho|exact Hmid].
Qed.

Lemma expandFrom_last (l : list Point) :
  forall (k : nat) (prev : option Point),
  last (expandFrom delta G k prev l) = last l.
Proof.
  induction l as [|o rest IH]; intros k prev; [reflexivity|].
  rewrite expandFrom_cons.
  destruct rest as [|n rest'].
  - unfold nextFix. destruct (G k); simpl; rewrite last_app; reflexivity.
  - rewrite last_app, last_cons, last_app, (IH (S k) (Some o)).
    rewrite (last_cons o (n :: rest')).
    destruct (last (n :: rest')) eqn:E; [reflexivity|].
    rewrite last_cons in E. destruct (last rest'); discriminate.
Qed.

Lemma expand_ends (l : list Point) :
  Forall (fun p => is_type "gapfix" p = false) l ->
  ends_original (expand delta G l).
Proof.
  intros Hl. split.
  - intros p. unfold expand. destruct l as [|o rest]; [discriminate|].
    rewrite expandFrom_cons. unfold prevFix.
    destruct (G 0); simpl; intros [= <-];
      apply Forall_cons in Hl as [Ho _]; exact Ho.
  - intros p. unfold expand. rewrite expandFrom_last. intros Hp.
    apply last_Some in Hp as [l' ->].
    apply Forall_app in Hl as [_ Hl]. apply Forall_cons in Hl as [Hp _].
    exact Hp.
Qed.

End Shapes.




(** X8: if no point of the input is tagged ['gapfix'], then in the store a
    call leaves (on return or on a throw) no series begins or ends with a
    fix point, and no two fix points are neighbours: between two points of
    the input there is at most one. *)
Theorem X8_fix_points_never_adjacent (delta : Z) (series : list Series) :
  Forall (fun s => Forall (fun p => is_type "gapfix" p = false) (data s))
    series ->
  Forall (fun s' => no_adjacent_fix (data s') /\ ends_original (data s'))
    (store_of (V110.fixSeries delta series)).
Proof.
  intros Hno. apply Forall_lookup. intros i s' Hs'.
  assert (Hlen : exists s, series !! i = Some s).
  { apply lookup_lt_Some in Hs'. rewrite fixSeries_length in Hs'.
    apply lookup_lt_is_Some_2 in Hs'. destruct Hs' as [s Hs]. eauto. }
  destruct Hlen as [s Hs].
  destruct (fixSeries_lookup_scan delta series i s Hs) as (s2 & Hs2 & Hc).
  assert (s2 = s') by congruence. subst s2.
  assert (Hplain : Forall (fun p => is_type "gapfix" p = false)
                     (map tagGap (data s))).
  { rewrite Forall_lookup in Hno. specialize (Hno i s Hs).
    apply Forall_map. eapply Forall_impl; [exact Hno|].
    intros p Hp. unfold tagGap. destruct (is_null p); [reflexivity|exact Hp]. }
  assert (Hex : exists G', data s' =
                  expand delta G' (map tagGap (data s))).
  { destruct Hc as [Hc|Hc].
    - exists (fun _ => false). rewrite expand_start. exact Hc.
    - destruct (fixGaps_store delta (map tagGap (data s))
                  (snd (V110.scan series)) (tagged_tagGap _)
                  (fun _ => false) (proj1 (scan_gaps series))
                  (below_none _)) as [G' EG].
      exists G'. rewrite <- EG, expand_start. exact Hc. }
  destruct Hex as [G' ->]. split.
  - apply expandFrom_no_adjacent. exact Hplain.
  - apply expand_ends. exact Hplain.
Qed.

Lemma X8_fix_points_never_adjacent_witness :
  Forall (fun s => Forall (fun p => is_type "gapfix" p = false) (data s))
    run_input
  /\ Forall (fun s' => no_adjacent_fix (data s') /\ ends_original (data s'))
       (store_of (V110.fixSeries 1 run_input)).
Proof.
  assert (H : Forall (fun s => Forall (fun p => is_type "gapfix" p = false)
                                 (data s)) run_input)
    by (repeat constructor).
  split; [exact H|]. exact (X8_fix_points_never_adjacent 1 run_input H).
Defined.

(** ** Version 1.1.0: the walks and the insertion *)

Section Walks.

Lemma getNext_from_spec (ahead : list Point) :
  (Forall skipped ahead /\ V110.getNext_from ahead = None)
  \/ exists L p rest,
       ahead = L ++ p :: rest /\ Forall skipped L /\ ~ skipped p
       /\ V110.getNext_from ahead = V110.mkBoundary (x p) <$> boundary p.
Proof.
  induction ahead as [|a ahead IH].
  - left. split; [constructor|reflexivity].
  - simpl. unfold boundary.
    destruct (is_type "gap" a) eqn:Eg.
    + right. exists [], a, ahead. rewrite Eg.
      split; [reflexivity|]. split; [constructor|]. split; [|reflexivity].
      intros [_ H]. congruence.
    + destruct (y a) as [v|] eqn:Ey.
      * right. exists [], a, ahead. rewrite Eg, Ey.
        split; [reflexivity|]. split; [constructor|]. split; [|reflexivity].
        intros [H _]. unfold is_null in H. rewrite Ey in H. discriminate.
      * assert (Ha : skipped a)
          by (split; [unfold is_null; rewrite Ey; reflexivity|exact Eg]).
        destruct IH as [[Hall Hn]|(L & p & rest & -> & HL & Hp & E)].
        -- left. split; [constructor; assumption|exact Hn].
        -- right. exists (a :: L), p, rest.
           split; [reflexivity|]. split; [constructor; assumption|].
           split; [exact Hp|exact E].
Qed.

End Walks.

(** X9: [getPrev] throws exactly when the index is greater than the length
    of the array, or when every point below the index is null without being
    tagged ['gap'] (for index 0 there is no point below, so it always
    throws): the walk then reaches [data[-1]]. *)
Theorem X9_getPrev_throws_iff (data : list Point) (i : nat) :
  V110.getPrev data i = inl tt <->
  (length data < i)%nat \/ Forall skipped (take i data).
Proof.
  induction i as [|i IH].
  - simpl. split; [intros _; right; constructor|reflexivity].
  - simpl. destruct (data !! i) as [p|] eqn:Ep.
    + pose proof (lookup_lt_Some _ _ _ Ep) as Hlt.
      rewrite (take_S_r _ _ _ Ep), Forall_app, Forall_singleton.
      unfold skipped at 2.
      destruct (is_type "gap" p) eqn:Eg.
      * split; [discriminate|]. intros [H|[_ [_ H]]]; [lia|discriminate].
      * destruct (y p) as [v|] eqn:Ey.
        -- split; [discriminate|]. intros [H|[_ [H _]]]; [lia|].
           unfold is_null in H. rewrite Ey in H. discriminate.
        -- rewrite IH. unfold is_null. rewrite Ey.
           split; [intros [H|H]; [lia|auto]|intros [H|[H _]]; [lia|auto]].
    + apply lookup_ge_None in Ep. split; [intros _; left; lia|reflexivity].
Qed.

(** X10: when [getPrev] returns, its answer comes from the nearest point
    below the index that is not stepped over: every point between that one
    and the index is null without the tag ['gap']; the answer is null if
    that point is tagged ['gap'], and otherwise its [x] and its non-null
    [y]. *)
Theorem X10_getPrev_nearest (data : list Point) (i : nat)
  (r : option V110.Boundary) :
  V110.getPrev data i = inr r ->
  exists j p,
    (j < i)%nat /\ data !! j = Some p /\ ~ skipped p
    /\ Forall skipped (drop (S j) (take i data))
    /\ r = V110.mkBoundary (x p) <$> boundary p.
Proof.
  induction i as [|i IH]; simpl; [discriminate|].
  destruct (data !! i) as [p|] eqn:Ep; [|discriminate].
  pose proof (lookup_lt_Some _ _ _ Ep) as Hlt.
  assert (Hend : drop (S i) (take (S i) data) = [])
    by (apply drop_ge; rewrite length_take; lia).
  unfold boundary.
  destruct (is_type "gap" p) eqn:Eg.
  - intros [= <-]. exists i, p. rewrite Hend, Eg.
    split; [lia|]. split; [exact Ep|].
    split; [|split; [constructor|reflexivity]].
    intros [_ H]. congruence.
  - destruct (y p) as [v|] eqn:Ey.
    + intros [= <-]. exists i, p. rewrite Hend, Eg, Ey.
      split; [lia|]. split; [exact Ep|].
      split; [|split; [constructor|reflexivity]].
      intros [H _]. unfold is_null in H. rewrite Ey in H. discriminate.
    + intros H. destruct (IH H) as (j & q & Hj & Hq & Hnq & Hall & ->).
      exists j, q. split; [lia|]. split; [exact Hq|]. split; [exact Hnq|].
      split; [|reflexivity].
      rewrite (take_S_r _ _ _ Ep), drop_app_le by (rewrite length_take; lia).
      apply Forall_app. split; [exact Hall|]. apply Forall_singleton.
      split; [unfold is_null; rewrite Ey; reflexivity|exact Eg].
Qed.

Lemma X10_getPrev_nearest_witness :
  exists j p,
    (j < 3)%nat
    /\ [pt 0 (Some 7); setType "gap" (pt 10 None); gapfix 11 None;
        pt 20 (Some 8)] !! j = Some p
    /\ ~ skipped p
    /\ Forall skipped
         (drop (S j)
            (take 3 [pt 0 (Some 7); setType "gap" (pt 10 None);
                     gapfix 11 None; pt 20 (Some 8)]))
    /\ None = V110.mkBoundary (x p) <$> boundary p.
Proof.
  exact (X10_getPrev_nearest
           [pt 0 (Some 7); setType "gap" (pt 10 None); gapfix 11 None;
            pt 20 (Some 8)] 3 None eq_refl).
Defined.

(** X11: [getNext] never reads outside the array.  Either every point
    behind the index is stepped over (null, not tagged ['gap']; in
    particular when the index is the last one) and the answer is null, or
    the answer comes from the first point behind the index that is not
    stepped over: null if it is tagged ['gap'], otherwise its [x] and its
    non-null [y]. *)
Theorem X11_getNext_nearest (data : list Point) (i : nat) :
  (Forall skipped (drop (S i) data) /\ V110.getNext data i = None)
  \/ exists L p rest,
       drop (S i) data = L ++ p :: rest /\ Forall skipped L /\ ~ skipped p
       /\ V110.getNext data i = V110.mkBoundary (x p) <$> boundary p.
Proof.
  unfold V110.getNext. apply getNext_from_spec.
Qed.

(** X12: [insertGapFix] throws, leaving the array alone, when the index is
    outside the array; it leaves the array alone and returns when the slot
    holds a point tagged ['gapfix']; otherwise the array grows by one, the
    new point is at the index, the points below keep their positions and
    the others move up by one. *)
Theorem X12_insertGapFix_cases (data : list Point) (i : nat) (f : Point) :
  match data !! i with
  | None => V110.insertGapFix data i f = TypeError data
  | Some p =>
      if is_type "gapfix" p then V110.insertGapFix data i f = Done data
      else exists d',
        V110.insertGapFix data i f = Done d'
        /\ length d' = S (length data)
        /\ d' !! i = Some f
        /\ (forall j, (j < i)%nat -> d' !! j = data !! j)
        /\ (forall j, (i <= j)%nat -> d' !! S j = data !! j)
  end.
Proof.
  unfold V110.insertGapFix. destruct (data !! i) as [p|] eqn:Ep; [|reflexivity].
  destruct (is_type "gapfix" p); [reflexivity|].
  pose proof (lookup_lt_Some _ _ _ Ep) as Hlt.
  assert (Hlen : length (take i data) = i) by (rewrite length_take; lia).
  exists (splice data i f). split; [reflexivity|]. unfold splice.
  split; [|split; [|split]].
  - rewrite length_app. simpl. rewrite Hlen, length_drop. lia.
  - apply lookup_at. exact Hlen.
  - intros j Hj. rewrite lookup_app_l by lia. apply lookup_take_lt. exact Hj.
  - intros j Hj. rewrite lookup_app_r by lia. rewrite Hlen.
    replace (S j - i)%nat with (S (j - i)) by lia. simpl.
    rewrite lookup_drop. f_equal. lia.
Qed.

(** ** Version 1.0.0 *)

Section More100.

Lemma splice_Forall {A : Type} (Q : A -> Prop) (l : list A) (n : nat)
  (a : A) :
  Forall Q l -> Q a -> Forall Q (splice l n a).
Proof.
  intros Hl Ha. unfold splice. apply Forall_app.
  split; [apply Forall_take; exact Hl|].
  constructor; [exact Ha|apply Forall_drop; exact Hl].
Qed.

Lemma applyFix100_sublist (sid : option Id) (f : V100.Fix)
  (d : list Point) :
  sublist d (V100.applyFix sid f d).
Proof.
  unfold V100.applyFix.
  destruct (V100.xNext f) as [n|]; [destruct (V100.truthy (Some n))|];
    (destruct (V100.xPrev f) as [m|]; [destruct (V100.truthy (Some m))|]);
    first [reflexivity
          |apply sublist_splice
          |etransitivity; [apply sublist_splice|apply sublist_splice]].
Qed.

Lemma applyFix100_Forall (Q : Point -> Prop) (sid : option Id)
  (f : V100.Fix) (d : list Point) :
  Forall Q d -> (forall px py, Q (V100.createGapPoint px py)) ->
  Forall Q (V100.applyFix sid f d).
Proof.
  intros Hd HQ. unfold V100.applyFix.
  destruct (V100.xNext f) as [n|]; [destruct (V100.truthy (Some n))|];
    (destruct (V100.xPrev f) as [m|]; [destruct (V100.truthy (Some m))|]);
    repeat (first [exact Hd|apply splice_Forall; [|apply HQ]]).
Qed.

Lemma fixData100_sublist (sid : option Id) (fixes : list V100.Fix) :
  forall d, sublist d (V100.fixData sid fixes d).
Proof.
  unfold V100.fixData. induction fixes as [|f fixes IH]; intros d; simpl;
    [reflexivity|].
  etransitivity; [apply (applyFix100_sublist sid f)|apply IH].
Qed.

Lemma fixData100_Forall (Q : Point -> Prop) (sid : option Id)
  (fixes : list V100.Fix) :
  (forall px py, Q (V100.createGapPoint px py)) ->
  forall d, Forall Q d -> Forall Q (V100.fixData sid fixes d).
Proof.
  intros HQ. unfold V100.fixData.
  induction fixes as [|f fixes IH]; intros d Hd; simpl; [exact Hd|].
  apply IH. apply applyFix100_Forall; assumption.
Qed.

Lemma scanSeries100_lookup (rest : list Series) :
  forall (k i : nat) (s : Series),
  rest !! i = Some s ->
  fst (V100.scanSeries k rest) !! i =
    Some (mkSeries (Some (V100.assignId (k + i) s)) (data s)).
Proof.
  induction rest as [|s0 rest IH]; intros k i s Hs; [discriminate|].
  simpl. specialize (IH (S k)).
  destruct (V100.scanSeries (S k) rest) as [out fixes]. simpl in *.
  destruct i as [|i].
  - injection Hs as ->. rewrite Nat.add_0_r. reflexivity.
  - simpl. simpl in Hs. rewrite (IH i s Hs).
    replace (k + S i)%nat with (S k + i)%nat by lia. reflexivity.
Qed.

Lemma scanSeries100_length (rest : list Series) :
  forall k, length (fst (V100.scanSeries k rest)) = length rest.
Proof.
  induction rest as [|s0 rest IH]; intros k; [reflexivity|].
  simpl. specialize (IH (S k)).
  destruct (V100.scanSeries (S k) rest) as [out fixes]. simpl in *.
  f_equal. exact IH.
Qed.

Lemma lookup_map {A B : Type} (f : A -> B) (l : list A) :
  forall i, map f l !! i = f <$> l !! i.
Proof.
  induction l as [|a l IH]; intros [|i]; simpl; auto.
Qed.

(** Each series after the call, by position. *)
Lemma fixSeries100_lookup (series : list Series) (i : nat) (s : Series) :
  series !! i = Some s ->
  V100.fixSeries series !! i =
    Some (mkSeries (Some (V100.assignId i s))
            (V100.fixData (Some (V100.assignId i s))
               (rev (snd (V100.scanSeries O series))) (data s))).
Proof.
  intros Hs. unfold V100.fixSeries.
  pose proof (scanSeries100_lookup series O i s Hs) as H.
  destruct (V100.scanSeries O series) as [series' fixes]. simpl in *.
  rewrite lookup_map, H. reflexivity.
Qed.

End More100.

Section Shape100.

Lemma collect100_skip (data : list Point) (sid : Id) (l1 rest : list Point) :
  Forall (fun p => is_null p = false) l1 ->
  forall i,
  V100.collectFixes data sid i (l1 ++ rest) =
    V100.collectFixes data sid (i + length l1) rest.
Proof.
  induction 1 as [|a l1 Ha _ IH]; intros i; simpl.
  - rewrite Nat.add_0_r. reflexivity.
  - rewrite Ha, IH. f_equal. lia.
Qed.

Lemma collect100_gap_free (data : list Point) (sid : Id) (l : list Point) :
  Forall (fun p => is_null p = false) l ->
  forall i, V100.collectFixes data sid i l = [].
Proof.
  induction 1 as [|a l Ha _ IH]; intros i; simpl; [reflexivity|].
  rewrite Ha. apply IH.
Qed.

Lemma id_eqb_refl (a : Id) : V100.id_eqb a a = true.
Proof.
  destruct a; simpl; [apply Z.eqb_refl|apply String.eqb_refl].
Qed.

Lemma scanSeries100_gap_free (rest : list Series) :
  gap_free rest -> forall k, snd (V100.scanSeries k rest) = [].
Proof.
  induction 1 as [|s rest Hs _ IH]; intros k; [reflexivity|].
  simpl. specialize (IH (S k)).
  destruct (V100.scanSeries (S k) rest) as [out fixes]. simpl in *.
  rewrite IH, (collect100_gap_free _ _ _ Hs). reflexivity.
Qed.

End Shape100.

(** X13: version 1.0.0 only inserts.  For every input, the series at
    position [i] comes back with its own id or [i], its points are all
    still there, unchanged and in their order, and every other point of the
    result was made by [createGapPoint]. *)
Theorem X13_v100_only_inserts (series : list Series) (i : nat) (s : Series) :
  series !! i = Some s ->
  exists s',
    V100.fixSeries series !! i = Some s'
    /\ id s' = Some (match id s with
                     | Some v => v
                     | None => IdNum (Z.of_nat i)
                     end)
    /\ sublist (data s) (data s')
    /\ Forall (original_or_made V100.createGapPoint (data s)) (data s').
Proof.
  intros Hs. eexists. split; [exact (fixSeries100_lookup series i s Hs)|].
  simpl. split; [reflexivity|]. split.
  - apply fixData100_sublist.
  - apply fixData100_Forall.
    + intros px py. right. eauto.
    + apply Forall_forall. intros p Hp. left. apply list_elem_of_In.
      exact Hp.
Qed.

Lemma X13_v100_only_inserts_witness :
  [s1; s2] !! 1%nat = Some s2
  /\ exists s',
       V100.fixSeries [s1; s2] !! 1%nat = Some s'
       /\ id s' = Some (IdNum 1)
       /\ sublist (data s2) (data s')
       /\ Forall (original_or_made V100.createGapPoint (data s2)) (data s').
Proof.
  assert (H : [s1; s2] !! 1%nat = Some s2) by reflexivity.
  split; [exact H|]. exact (X13_v100_only_inserts [s1; s2] 1 s2 H).
Defined.

(** X14: version 1.0.0 on an input without a null point changes no data
    array; it only assigns the ids. *)
Theorem X14_v100_gap_free (series : list Series) (i : nat) (s : Series) :
  gap_free series ->
  series !! i = Some s ->
  V100.fixSeries series !! i =
    Some (mkSeries (Some (V100.assignId i s)) (data s)).
Proof.
  intros Hg Hs. rewrite (fixSeries100_lookup series i s Hs).
  rewrite (scanSeries100_gap_free series Hg O). reflexivity.
Qed.

Lemma X14_v100_gap_free_witness :
  gap_free [s1]
  /\ [s1] !! 0%nat = Some s1
  /\ V100.fixSeries [s1] !! 0%nat =
       Some (mkSeries (Some (V100.assignId 0 s1)) (data s1)).
Proof.
  assert (H1 : gap_free [s1]) by (repeat constructor).
  assert (H2 : [s1] !! 0%nat = Some s1) by reflexivity.
  split; [exact H1|]. split; [exact H2|].
  exact (X14_v100_gap_free [s1] 0 s1 H1 H2).
Defined.

(** X15: version 1.0.0 on a single series with one null point [g] that has
    a real point [p] in front and any point [q] behind, the rest of the
    series being free of null points: [g] gets a null point at [p.x + 1] in
    front and one at [q.x - 1] behind.  A neighbour whose [x] is 0 gets no
    such point, since the code tests the neighbour's [x] for truth. *)
Theorem X15_v100_isolated_gap (sid : option Id) (pre post : list Point)
  (p g q : Point) :
  Forall (fun a => is_null a = false) pre ->
  is_null p = false -> is_null g = true ->
  Forall (fun a => is_null a = false) post ->
  V100.fixSeries [mkSeries sid (pre ++ p :: g :: q :: post)] =
    [mkSeries
       (Some (match sid with Some v => v | None => IdNum 0 end))
       (pre ++ p ::
        unless_zero (x p)
          (mkPoint (x p + 1) None (Some "gap")
             (Some (mkMarker false false))) ++
        g ::
        unless_zero (x q)
          (mkPoint (x q - 1) None (Some "gap")
             (Some (mkMarker false false))) ++
        q :: post)].
Proof.
  intros Hpre Hp Hg Hpost.
  set (d := pre ++ p :: g :: q :: post).
  set (sid' := V100.assignId 0 (mkSeries sid d)).
  assert (Hfix : V100.collectFixes d sid' O d =
            [V100.mkFix sid' (S (length pre)) (x g)
               (Some (x p)) (Some (x q)) None]).
  { assert (Ed : d = (pre ++ [p]) ++ g :: q :: post)
      by (unfold d; rewrite <- app_assoc; reflexivity).
    rewrite Ed at 2.
    rewrite collect100_skip
      by (apply Forall_app; split; [exact Hpre|repeat constructor; exact Hp]).
    rewrite length_app. simpl.
    replace (length pre + 1)%nat with (S (length pre)) by lia.
    rewrite Hg. unfold V100.getPrev, V100.getNext.
    replace (d !! length pre) with (Some p)
      by (symmetry; apply lookup_at; reflexivity).
    replace (d !! S (S (length pre))) with (Some q).
    2:{ symmetry. unfold d.
        replace (pre ++ p :: g :: q :: post)
          with ((pre ++ [p; g]) ++ q :: post)
          by (rewrite <- app_assoc; reflexivity).
        apply lookup_at. rewrite length_app. simpl. lia. }
    simpl. rewrite (collect100_gap_free _ _ _ Hpost). reflexivity. }
  unfold V100.fixSeries. simpl. fold d. fold sid'. rewrite app_nil_r, Hfix.
  simpl. unfold V100.fixData. simpl. f_equal. unfold setData. simpl. f_equal.
  unfold V100.applyFix. simpl. rewrite id_eqb_refl. simpl.
  assert (E2 : forall f, splice d (S (S (length pre))) f =
                         pre ++ p :: g :: f :: q :: post).
  { intros f. unfold d.
    replace (pre ++ p :: g :: q :: post)
      with ((pre ++ [p; g]) ++ q :: post)
      by (rewrite <- app_assoc; reflexivity).
    rewrite splice_at by (rewrite length_app; simpl; lia).
    rewrite <- app_assoc. reflexivity. }
  assert (E1 : forall f R, splice (pre ++ p :: R) (S (length pre)) f =
                           pre ++ p :: f :: R).
  { intros f R.
    replace (pre ++ p :: R) with ((pre ++ [p]) ++ R)
      by (rewrite <- app_assoc; reflexivity).
    rewrite splice_at by (rewrite length_app; simpl; lia).
    rewrite <- app_assoc. reflexivity. }
  unfold unless_zero.
  destruct (x q =? 0); destruct (x p =? 0); simpl;
    rewrite ?E2; unfold d; rewrite ?E1; reflexivity.
Qed.

Lemma X15_v100_isolated_gap_witness :
  V100.fixSeries
    [mkSeries None ([pt 0 (Some 1)] ++ pt 10 (Some 1) :: pt 20 None ::
                    pt 30 (Some 1) :: [pt 40 (Some 1)])] =
    [mkSeries (Some (IdNum 0))
       ([pt 0 (Some 1)] ++ pt 10 (Some 1) ::
        unless_zero 10
          (mkPoint (10 + 1) None (Some "gap")
             (Some (mkMarker false false))) ++
        pt 20 None ::
        unless_zero 30
          (mkPoint (30 - 1) None (Some "gap")
             (Some (mkMarker false false))) ++
        pt 30 (Some 1) :: [pt 40 (Some 1)])].
Proof.
  apply (X15_v100_isolated_gap None [pt 0 (Some 1)] [pt 40 (Some 1)]
           (pt 10 (Some 1)) (pt 20 None) (pt 30 (Some 1)));
    first [reflexivity|repeat constructor].
Defined.

(** ** The single-series revision *)

Section MoreSingle.

Lemma getPostFix_from_ge (ahead : list Point) :
  forall (k : nat) (po : Single.Found),
  Single.getPostFix_from k ahead = Some po -> (k <= Single.fi po)%nat.
Proof.
  induction ahead as [|a ahead IH]; intros k po; simpl; [discriminate|].
  destruct (is_null a).
  - intros H. apply IH in H. lia.
  - intros [= <-]. simpl. lia.
Qed.

(** The collecting loop never runs out of the fuel it is given by
    [fixSeries]: every round moves the counter forward. *)
Lemma collectFixes_fuel (data : list Point) :
  forall (fuel i : nat) (acc : list Single.Fix),
  (length data - i <= fuel)%nat ->
  exists r, Single.collectFixes fuel data i acc = Some r.
Proof.
  induction fuel as [|fuel IH]; intros i acc Hf.
  - simpl. replace (i <? length data)%nat with false
      by (symmetry; apply Nat.ltb_ge; lia).
    eauto.
  - simpl. destruct (i <? length data)%nat eqn:Ei; [|eauto].
    apply Nat.ltb_lt in Ei.
    destruct (data !! i) as [p|]; [|eauto].
    destruct (is_null p); [|apply IH; lia].
    destruct (Single.getPostFix data i) as [po|] eqn:Epo; [|apply IH; lia].
    apply getPostFix_from_ge in Epo. apply IH. lia.
Qed.

Lemma applyFixSingle_sublist (f : Single.Fix) (d : list Point) :
  sublist d (Single.applyFix f d).
Proof.
  unfold Single.applyFix.
  destruct (Single.xPre f) as [n|]; [destruct (Single.truthy (Some n))|];
    (destruct (Single.xPost f) as [m|]; [destruct (Single.truthy (Some m))|]);
    first [reflexivity
          |apply sublist_splice
          |etransitivity; [apply sublist_splice|apply sublist_splice]].
Qed.

Lemma applyFixSingle_Forall (Q : Point -> Prop) (f : Single.Fix)
  (d : list Point) :
  Forall Q d -> (forall px py, Q (Single.createFixPoint px py)) ->
  Forall Q (Single.applyFix f d).
Proof.
  intros Hd HQ. unfold Single.applyFix.
  destruct (Single.xPre f) as [n|]; [destruct (Single.truthy (Some n))|];
    (destruct (Single.xPost f) as [m|]; [destruct (Single.truthy (Some m))|]);
    repeat (first [exact Hd|apply splice_Forall; [|apply HQ]]).
Qed.

Lemma foldSingle_sublist (fixes : list Single.Fix) :
  forall d, sublist d (fold_left (fun d f => Single.applyFix f d) fixes d).
Proof.
  induction fixes as [|f fixes IH]; intros d; simpl; [reflexivity|].
  etransitivity; [apply (applyFixSingle_sublist f)|apply IH].
Qed.

Lemma foldSingle_Forall (Q : Point -> Prop) (fixes : list Single.Fix) :
  (forall px py, Q (Single.createFixPoint px py)) ->
  forall d, Forall Q d ->
  Forall Q (fold_left (fun d f => Single.applyFix f d) fixes d).
Proof.
  intros HQ. induction fixes as [|f fixes IH]; intros d Hd; simpl;
    [exact Hd|].
  apply IH. apply applyFixSingle_Forall; assumption.
Qed.

(** The collecting loop over a stretch [l1] without null points. *)
Lemma collectSingle_skip (l1 : list Point) :
  forall (A rest : list Point) (fuel : nat) (acc : list Single.Fix),
  Forall (fun p => is_null p = false) l1 ->
  (length l1 <= fuel)%nat ->
  Single.collectFixes fuel (A ++ l1 ++ rest) (length A) acc =
    Single.collectFixes (fuel - length l1) (A ++ l1 ++ rest)
      (length A + length l1) acc.
Proof.
  induction l1 as [|a l1 IH]; intros A rest fuel acc Hl Hf.
  - simpl. rewrite Nat.sub_0_r, Nat.add_0_r. reflexivity.
  - apply Forall_cons in Hl as [Ha Hl]. simpl in Hf.
    destruct fuel as [|fuel]; [lia|].
    remember (A ++ (a :: l1) ++ rest) as d eqn:Ed.
    assert (Hlt : (length A <? length d)%nat = true)
      by (apply Nat.ltb_lt; subst d; rewrite length_app; simpl; lia).
    assert (Hlk : d !! length A = Some a)
      by (subst d; apply lookup_at; reflexivity).
    assert (Ed' : d = (A ++ [a]) ++ l1 ++ rest)
      by (subst d; rewrite <- app_assoc; reflexivity).
    cbn [Single.collectFixes]. rewrite Hlt, Hlk, Ha.
    replace (S (length A)) with (length (A ++ [a]))
      by (rewrite length_app; simpl; lia).
    rewrite Ed', IH by (try assumption; lia).
    rewrite length_app. simpl. f_equal. lia.
Qed.

Lemma collectSingle_end (data : list Point) (fuel i : nat)
  (acc : list Single.Fix) :
  (length data <= i)%nat ->
  Single.collectFixes fuel data i acc = Some acc.
Proof.
  intros H. destruct fuel; simpl;
    replace (i <? length data)%nat with false
      by (symmetry; apply Nat.ltb_ge; lia);
    reflexivity.
Qed.

Lemma getPostFix_from_run (R rest : list Point) (q : Point) :
  Forall (fun r => is_null r = true) R -> is_null q = false ->
  forall k,
  Single.getPostFix_from k (R ++ q :: rest) =
    Some (Single.mkFound (x q) (k + length R)).
Proof.
  intros HR Hq. induction HR as [|r R Hr _ IH]; intros k; simpl.
  - rewrite Hq, Nat.add_0_r. reflexivity.
  - rewrite Hr, IH. do 2 f_equal. lia.
Qed.

End MoreSingle.

(** X16: the single-series revision always returns (the fuel of its
    collecting loop, the length of the array, is enough), and it only
    inserts: the id is untouched, the points of the series are all still
    there, unchanged and in their order, and every other point of the result
    was made by [createFixPoint]. *)
Theorem X16_single_returns_and_only_inserts (series : Series) :
  exists s',
    Single.fixSeries series = Some s'
    /\ id s' = id series
    /\ sublist (data series) (data s')
    /\ Forall (original_or_made Single.createFixPoint (data series))
         (data s').
Proof.
  unfold Single.fixSeries.
  destruct (collectFixes_fuel (data series) (length (data series)) O [])
    as [fixes ->]; [lia|].
  eexists. split; [reflexivity|]. simpl. split; [reflexivity|]. split.
  - apply foldSingle_sublist.
  - apply foldSingle_Forall.
    + intros px py. right. eauto.
    + apply Forall_forall. intros p Hp. left. apply list_elem_of_In.
      exact Hp.
Qed.

(** X17: the single-series revision leaves a series without a null point
    exactly as it is. *)
Theorem X17_single_gap_free (series : Series) :
  Forall (fun p => is_null p = false) (data series) ->
  Single.fixSeries series = Some series.
Proof.
  intros Hg. unfold Single.fixSeries.
  pose proof (collectSingle_skip (data series) [] [] (length (data series))
                [] Hg (le_n _)) as H.
  simpl in H. rewrite app_nil_r in H. rewrite H.
  rewrite collectSingle_end by lia. simpl. rewrite setData_data.
  reflexivity.
Qed.

Lemma X17_single_gap_free_witness :
  Forall (fun p => is_null p = false) (data s1)
  /\ Single.fixSeries s1 = Some s1.
Proof.
  assert (H : Forall (fun p => is_null p = false) (data s1))
    by (repeat constructor).
  split; [exact H|]. exact (X17_single_gap_free s1 H).
Defined.

Section RunSingle.

Lemma collectSingle_skip_at (d A l1 rest : list Point) (fuel i : nat)
  (acc : list Single.Fix) :
  d = A ++ l1 ++ rest -> i = length A ->
  Forall (fun p => is_null p = false) l1 ->
  (length l1 <= fuel)%nat ->
  Single.collectFixes fuel d i acc =
    Single.collectFixes (fuel - length l1) d (i + length l1) acc.
Proof.
  intros -> -> Hl Hf. apply collectSingle_skip; assumption.
Qed.

(** The fixes the collecting loop finds in a series with one run of null
    points. *)
Lemma collectSingle_run (pre R0 post : list Point) (p r0 q : Point) :
  Forall (fun a => is_null a = false) pre ->
  is_null p = false -> is_null r0 = true ->
  Forall (fun a => is_null a = true) R0 ->
  is_null q = false ->
  Forall (fun a => is_null a = false) post ->
  let d := pre ++ p :: r0 :: R0 ++ q :: post in
  Single.collectFixes (length d) d O [] =
    Some [Single.mkFix (S (length pre)) (x r0) (Some (x p)) (Some (x q))
            None].
Proof.
  intros Hpre Hp Hr0 HR0 Hq Hpost d.
  assert (E1 : d = [] ++ (pre ++ [p]) ++ r0 :: R0 ++ q :: post)
    by (unfold d; simpl; rewrite <- app_assoc; reflexivity).
  assert (Hlen : length d =
            (length pre + 1 + S (length R0 + 1 + length post))%nat).
  { unfold d. rewrite length_app. simpl. rewrite length_app. simpl. lia. }
  rewrite (collectSingle_skip_at d [] (pre ++ [p]) _ (length d) O [] E1
             eq_refl);
    [|apply Forall_app; split; [exact Hpre|repeat constructor; exact Hp]
     |rewrite length_app; simpl; lia].
  rewrite length_app. simpl length.
  replace (length d - (length pre + 1))%nat
    with (S (length R0 + 1 + length post)) by lia.
  replace (0 + (length pre + 1))%nat with (S (length pre)) by lia.
  assert (Hlt : (S (length pre) <? length d)%nat = true)
    by (apply Nat.ltb_lt; lia).
  assert (Hlk : d !! S (length pre) = Some r0).
  { unfold d. replace (pre ++ p :: r0 :: R0 ++ q :: post)
      with ((pre ++ [p]) ++ r0 :: R0 ++ q :: post)
      by (rewrite <- app_assoc; reflexivity).
    apply lookup_at. rewrite length_app. simpl. lia. }
  assert (Epre : Single.getPreFix d (S (length pre)) =
                 Some (Single.mkFound (x p) (length pre))).
  { simpl. replace (d !! length pre) with (Some p)
      by (symmetry; unfold d; apply lookup_at; reflexivity).
    rewrite Hp. reflexivity. }
  assert (Epost : Single.getPostFix d (S (length pre)) =
                  Some (Single.mkFound (x q)
                          (S (S (length pre)) + length R0))).
  { unfold Single.getPostFix.
    replace (drop (S (S (length pre))) d) with (R0 ++ q :: post).
    - apply getPostFix_from_run; assumption.
    - symmetry. unfold d.
      replace (pre ++ p :: r0 :: R0 ++ q :: post)
        with ((pre ++ [p; r0]) ++ R0 ++ q :: post)
        by (rewrite <- app_assoc; reflexivity).
      apply drop_at. rewrite length_app. simpl. lia. }
  cbn [Single.collectFixes]. rewrite Hlt, Hlk, Hr0, Epre, Epost.
  cbn [Single.fi Single.fx fmap option_fmap option_map app].
  assert (E3 : d = (pre ++ p :: r0 :: R0 ++ [q]) ++ post ++ []).
  { unfold d. rewrite app_nil_r, <- app_assoc. simpl.
    rewrite <- app_assoc. reflexivity. }
  rewrite (collectSingle_skip_at d _ post [] _ _ _ E3);
    [|rewrite length_app; simpl; rewrite length_app; simpl; lia
     |exact Hpost|lia].
  apply collectSingle_end. lia.
Qed.

End RunSingle.

(** X18: the single-series revision on a series with one run of null points
    between the real points [p] and [q], the rest free of null points and
    neither [p.x] nor [q.x] being 0.  The run is recorded once; a null point
    at [p.x + 1] is put in front of it, and a null point at [q.x - 1] is put
    two positions further, that is behind the first point of the run (in
    front of [q] only when the run is a single point). *)
Theorem X18_single_run (sid : option Id) (pre R0 post : list Point)
  (p r0 q : Point) :
  Forall (fun a => is_null a = false) pre ->
  is_null p = false -> is_null r0 = true ->
  Forall (fun a => is_null a = true) R0 ->
  is_null q = false ->
  Forall (fun a => is_null a = false) post ->
  x p <> 0 -> x q <> 0 ->
  Single.fixSeries (mkSeries sid (pre ++ p :: r0 :: R0 ++ q :: post)) =
    Some (mkSeries sid
            (pre ++ p ::
             mkPoint (x p + 1) None (Some "fix")
               (Some (mkMarker false false)) ::
             r0 ::
             mkPoint (x q - 1) None (Some "fix")
               (Some (mkMarker false false)) ::
             R0 ++ q :: post)).
Proof.
  intros Hpre Hp Hr0 HR0 Hq Hpost Hxp Hxq.
  unfold Single.fixSeries. simpl data.
  rewrite (collectSingle_run pre R0 post p r0 q Hpre Hp Hr0 HR0 Hq Hpost).
  simpl. unfold setData. simpl. do 2 f_equal.
  unfold Single.applyFix. simpl.
  apply Z.eqb_neq in Hxp, Hxq. rewrite Hxp, Hxq. simpl.
  replace (pre ++ p :: r0 :: R0 ++ q :: post)
    with ((pre ++ [p]) ++ r0 :: R0 ++ q :: post)
    by (rewrite <- app_assoc; reflexivity).
  rewrite splice_at by (rewrite length_app; simpl; lia).
  replace ((pre ++ [p]) ++
           Single.createFixPoint (x p + 1) None :: r0 :: R0 ++ q :: post)
    with ((pre ++ [p; Single.createFixPoint (x p + 1) None; r0]) ++
          R0 ++ q :: post)
    by (rewrite <- !app_assoc; reflexivity).
  rewrite splice_at by (rewrite length_app; simpl; lia).
  rewrite <- app_assoc. reflexivity.
Qed.

Lemma X18_single_run_witness :
  Single.fixSeries
    (mkSeries None ([pt 1 (Some 1)] ++ pt 10 (Some 1) :: pt 20 None ::
                    [pt 30 None] ++ pt 40 (Some 1) :: [pt 50 (Some 1)])) =
    Some (mkSeries None
            ([pt 1 (Some 1)] ++ pt 10 (Some 1) ::
             mkPoint (10 + 1) None (Some "fix")
               (Some (mkMarker false false)) ::
             pt 20 None ::
             mkPoint (40 - 1) None (Some "fix")
               (Some (mkMarker false false)) ::
             [pt 30 None] ++ pt 40 (Some 1) :: [pt 50 (Some 1)])).
Proof.
  apply (X18_single_run None [pt 1 (Some 1)] [pt 30 None] [pt 50 (Some 1)]
           (pt 10 (Some 1)) (pt 20 None) (pt 40 (Some 1)));
    first [reflexivity|discriminate|repeat constructor].
Defined.

(** ** The single-series revision with immediate neighbours *)

Section MoreSingle2.

Lemma applyFixSingle2_sublist (f : Single2.Fix) (d : list Point) :
  sublist d (Single2.applyFix f d).
Proof.
  unfold Single2.applyFix.
  destruct (Single2.xPost f) as [n|]; [destruct (Single2.truthy (Some n))|];
    (destruct (Single2.xPre f) as [m|];
       [destruct (Single2.truthy (Some m))|]);
    first [reflexivity
          |apply sublist_splice
          |etransitivity; [apply sublist_splice|apply sublist_splice]].
Qed.

Lemma applyFixSingle2_Forall (Q : Point -> Prop) (f : Single2.Fix)
  (d : list Point) :
  Forall Q d -> (forall px py, Q (Single2.createFixPoint px py)) ->
  Forall Q (Single2.applyFix f d).
Proof.
  intros Hd HQ. unfold Single2.applyFix.
  destruct (Single2.xPost f) as [n|]; [destruct (Single2.truthy (Some n))|];
    (destruct (Single2.xPre f) as [m|];
       [destruct (Single2.truthy (Some m))|]);
    repeat (first [exact Hd|apply splice_Forall; [|apply HQ]]).
Qed.

Lemma foldSingle2_sublist (fixes : list Single2.Fix) :
  forall d, sublist d (fold_left (fun d f => Single2.applyFix f d) fixes d).
Proof.
  induction fixes as [|f fixes IH]; intros d; simpl; [reflexivity|].
  etransitivity; [apply (applyFixSingle2_sublist f)|apply IH].
Qed.

Lemma foldSingle2_Forall (Q : Point -> Prop) (fixes : list Single2.Fix) :
  (forall px py, Q (Single2.createFixPoint px py)) ->
  forall d, Forall Q d ->
  Forall Q (fold_left (fun d f => Single2.applyFix f d) fixes d).
Proof.
  intros HQ. induction fixes as [|f fixes IH]; intros d Hd; simpl;
    [exact Hd|].
  apply IH. apply applyFixSingle2_Forall; assumption.
Qed.

Lemma collectSingle2_skip (data l1 rest : list Point) :
  Forall (fun p => is_null p = false) l1 ->
  forall i,
  Single2.collectFixes data i (l1 ++ rest) =
    Single2.collectFixes data (i + length l1) rest.
Proof.
  induction 1 as [|a l1 Ha _ IH]; intros i; simpl.
  - rewrite Nat.add_0_r. reflexivity.
  - rewrite Ha, IH. f_equal. lia.
Qed.

Lemma collectSingle2_gap_free (data l : list Point) :
  Forall (fun p => is_null p = false) l ->
  forall i, Single2.collectFixes data i l = [].
Proof.
  induction 1 as [|a l Ha _ IH]; intros i; simpl; [reflexivity|].
  rewrite Ha. apply IH.
Qed.

End MoreSingle2.

(** X19: the second single-series revision only inserts: the id is
    untouched, the points of the series are all still there, unchanged and
    in their order, and every other point of the result was made by
    [createFixPoint]; a series without a null point comes back as it is. *)
Theorem X19_single2_only_inserts (series : Series) :
  id (Single2.fixSeries series) = id series
  /\ sublist (data series) (data (Single2.fixSeries series))
  /\ Forall (original_or_made Single2.createFixPoint (data series))
       (data (Single2.fixSeries series))
  /\ (Forall (fun p => is_null p = false) (data series) ->
      Single2.fixSeries series = series).
Proof.
  unfold Single2.fixSeries. simpl.
  split; [reflexivity|]. split; [apply foldSingle2_sublist|]. split.
  - apply foldSingle2_Forall.
    + intros px py. right. eauto.
    + apply Forall_forall. intros p Hp. left. apply list_elem_of_In.
      exact Hp.
  - intros Hg. rewrite (collectSingle2_gap_free _ _ Hg). simpl.
    apply setData_data.
Qed.

(** X20: the second single-series revision on a series with one null point
    [g] that has a real point [p] in front and any point [q] behind, the
    rest of the series being free of null points: [g] gets a null point at
    [p.x + 1] in front and one at [q.x - 1] behind; a neighbour whose [x]
    is 0 gets none. *)
Theorem X20_single2_isolated_gap (sid : option Id) (pre post : list Point)
  (p g q : Point) :
  Forall (fun a => is_null a = false) pre ->
  is_null p = false -> is_null g = true ->
  Forall (fun a => is_null a = false) post ->
  Single2.fixSeries (mkSeries sid (pre ++ p :: g :: q :: post)) =
    mkSeries sid
      (pre ++ p ::
       unless_zero (x p)
         (mkPoint (x p + 1) None (Some "fix")
            (Some (mkMarker false false))) ++
       g ::
       unless_zero (x q)
         (mkPoint (x q - 1) None (Some "fix")
            (Some (mkMarker false false))) ++
       q :: post).
Proof.
  intros Hpre Hp Hg Hpost.
  set (d := pre ++ p :: g :: q :: post).
  assert (Hfix : Single2.collectFixes d O d =
            [Single2.mkFix (S (length pre)) (x g)
               (Some (x p)) (Some (x q)) None]).
  { assert (Ed : d = (pre ++ [p]) ++ g :: q :: post)
      by (unfold d; rewrite <- app_assoc; reflexivity).
    rewrite Ed at 2.
    rewrite collectSingle2_skip
      by (apply Forall_app; split; [exact Hpre|repeat constructor; exact Hp]).
    rewrite length_app. simpl.
    replace (length pre + 1)%nat with (S (length pre)) by lia.
    rewrite Hg. unfold Single2.getPreFix, Single2.getPostFix.
    replace (d !! length pre) with (Some p)
      by (symmetry; apply lookup_at; reflexivity).
    replace (d !! S (S (length pre))) with (Some q).
    2:{ symmetry. unfold d.
        replace (pre ++ p :: g :: q :: post)
          with ((pre ++ [p; g]) ++ q :: post)
          by (rewrite <- app_assoc; reflexivity).
        apply lookup_at. rewrite length_app. simpl. lia. }
    simpl. rewrite (collectSingle2_gap_free _ _ Hpost). reflexivity. }
  unfold Single2.fixSeries. simpl data. fold d. rewrite Hfix.
  simpl. unfold setData. simpl. f_equal.
  unfold Single2.applyFix. simpl.
  assert (E2 : forall f, splice d (S (S (length pre))) f =
                         pre ++ p :: g :: f :: q :: post).
  { intros f. unfold d.
    replace (pre ++ p :: g :: q :: post)
      with ((pre ++ [p; g]) ++ q :: post)
      by (rewrite <- app_assoc; reflexivity).
    rewrite splice_at by (rewrite length_app; simpl; lia).
    rewrite <- app_assoc. reflexivity. }
  assert (E1 : forall f R, splice (pre ++ p :: R) (S (length pre)) f =
                           pre ++ p :: f :: R).
  { intros f R.
    replace (pre ++ p :: R) with ((pre ++ [p]) ++ R)
      by (rewrite <- app_assoc; reflexivity).
    rewrite splice_at by (rewrite length_app; simpl; lia).
    rewrite <- app_assoc. reflexivity. }
  unfold unless_zero.
  destruct (x q =? 0); destruct (x p =? 0); simpl;
    rewrite ?E2; unfold d; rewrite ?E1; reflexivity.
Qed.

Lemma X20_single2_isolated_gap_witness :
  Single2.fixSeries
    (mkSeries None ([pt 0 (Some 1)] ++ pt 10 (Some 1) :: pt 20 None ::
                    pt 30 (Some 1) :: [pt 40 (Some 1)])) =
    mkSeries None
      ([pt 0 (Some 1)] ++ pt 10 (Some 1) ::
       unless_zero 10
         (mkPoint (10 + 1) None (Some "fix")
            (Some (mkMarker false false))) ++
       pt 20 None ::
       unless_zero 30
         (mkPoint (30 - 1) None (Some "fix")
            (Some (mkMarker false false))) ++
       pt 30 (Some 1) :: [pt 40 (Some 1)]).
Proof.
  apply (X20_single2_isolated_gap None [pt 0 (Some 1)] [pt 40 (Some 1)]
           (pt 10 (Some 1)) (pt 20 None) (pt 30 (Some 1)));
    first [reflexivity|repeat constructor].
Defined.

Section OnePass2.

Lemma getPreFix2_last (A rest : list Point) :
  Single2.fx <$> Single2.getPreFix (A ++ rest) (length A) = x <$> last A.
Proof.
  destruct (last A) as [a|] eqn:El.
  - apply last_Some in El as [A' ->]. rewrite length_app. simpl.
    replace (length A' + 1)%nat with (S (length A')) by lia. simpl.
    rewrite <- app_assoc. simpl.
    rewrite (lookup_at A' rest a (length A') eq_refl). reflexivity.
  - apply last_None in El. subst A. reflexivity.
Qed.

Lemma applyFix2_at (A T : list Point) (o : Point) (i : nat) (xo : Z)
  (prev : option Point) (post : option Point) :
  length A = i ->
  Single2.applyFix
    (Single2.mkFix i xo (x <$> prev) (x <$> post) None)
    (A ++ o :: from_option (fun n => [n]) [] post ++ T) =
  A ++ inFront2 prev ++ o ::
  from_option (fun n => behind2 n ++ [n]) [] post ++ T.
Proof.
  intros Hi. unfold Single2.applyFix. simpl.
  assert (E1 : forall f R, splice (A ++ o :: R) i f = A ++ f :: o :: R)
    by (intros f R; apply splice_at; exact Hi).
  assert (E2 : forall f R, splice (A ++ o :: R) (S i) f = A ++ o :: f :: R).
  { intros f R. replace (A ++ o :: R) with ((A ++ [o]) ++ R)
      by (rewrite <- app_assoc; reflexivity).
    rewrite splice_at by (rewrite length_app; simpl; lia).
    rewrite <- app_assoc. reflexivity. }
  unfold inFront2, behind2, unless_zero.
  destruct post as [n|]; destruct prev as [a|]; simpl;
    repeat match goal with |- context [?v =? 0] => destruct (v =? 0) end;
    simpl; rewrite ?E2, ?E1; reflexivity.
Qed.

(** The insertion loop, run over the fixes collected from position
    [length A] on, builds the one-pass description of that part. *)
Lemma fold2_onePass (n : nat) :
  forall (rest A : list Point),
  (length rest <= n)%nat ->
  fold_left (fun d f => Single2.applyFix f d)
    (rev (Single2.collectFixes (A ++ rest) (length A) rest)) (A ++ rest) =
  A ++ onePass2 (last A) rest.
Proof.
  induction n as [|n IH]; intros rest A Hn.
  - destruct rest; [reflexivity|simpl in Hn; lia].
  - destruct rest as [|o rest]; [reflexivity|].
    simpl in Hn. simpl Single2.collectFixes. simpl onePass2.
    destruct (is_null o) eqn:Eo.
    + pose proof (getPreFix2_last A (o :: rest)) as Hpre.
      destruct rest as [|m rest'].
      * assert (Hpost : Single2.getPostFix (A ++ [o]) (length A) = None).
        { unfold Single2.getPostFix.
          rewrite (proj2 (lookup_ge_None _ _));
            [reflexivity|rewrite length_app; simpl; lia]. }
        rewrite Hpost, Hpre. simpl.
        pose proof (applyFix2_at A [] o (length A) (x o) (last A) None
                      eq_refl) as H.
        simpl in H. exact H.
      * assert (Hpost : Single2.getPostFix (A ++ o :: m :: rest') (length A)
                        = Some (Single2.mkFound (x m) (S (length A)))).
        { unfold Single2.getPostFix.
          replace (A ++ o :: m :: rest') with ((A ++ [o]) ++ m :: rest')
            by (rewrite <- app_assoc; reflexivity).
          rewrite (lookup_at (A ++ [o]) rest' m (S (length A)));
            [reflexivity|rewrite length_app; simpl; lia]. }
        rewrite Hpost, Hpre. simpl. rewrite fold_left_app. simpl.
        pose proof (IH rest' (A ++ [o; m])) as H2.
        replace ((A ++ [o; m]) ++ rest') with (A ++ o :: m :: rest') in H2
          by (rewrite <- app_assoc; reflexivity).
        replace (length (A ++ [o; m])) with (S (S (length A))) in H2
          by (rewrite length_app; simpl; lia).
        rewrite H2 by (simpl in Hn; lia).
        replace (last (A ++ [o; m])) with (Some m)
          by (symmetry; replace (A ++ [o; m]) with ((A ++ [o]) ++ [m])
                by (rewrite <- app_assoc; reflexivity);
              apply last_snoc).
        rewrite <- app_assoc. simpl.
        pose proof (applyFix2_at A (onePass2 (Some m) rest') o (length A)
                      (x o) (last A) (Some m) eq_refl) as H.
        simpl in H. rewrite <- app_assoc in H. exact H.
    + pose proof (IH rest (A ++ [o])) as H2.
      replace ((A ++ [o]) ++ rest) with (A ++ o :: rest) in H2
        by (rewrite <- app_assoc; reflexivity).
      replace (length (A ++ [o])) with (S (length A)) in H2
        by (rewrite length_app; simpl; lia).
      rewrite H2 by lia. rewrite last_snoc, <- app_assoc. reflexivity.
Qed.

Lemma onePass2_increasing (n : nat) :
  forall (l : list Point) (prev : option Point),
  (length l <= n)%nat ->
  spaced 1 l ->
  match prev, l with
  | Some a, o :: _ => x a + 1 < x o
  | _, _ => True
  end ->
  increasing_after prev (xs (onePass2 prev l)).
Proof.
  induction n as [|n IH]; intros l prev Hn Hs Hp.
  - destruct l; [destruct prev; exact I|simpl in Hn; lia].
  - destruct l as [|o rest]; [destruct prev; exact I|].
    simpl in Hn. simpl onePass2.
    assert (Htail : forall m rest', rest = m :: rest' ->
              x o + 1 < x m /\
              increasing (x m :: xs (onePass2 (Some m) rest'))).
    { intros m rest' ->. destruct Hs as [Hom Hs]. split; [exact Hom|].
      apply (IH rest' (Some m)); [simpl in Hn; lia| |].
      - destruct rest'; [exact I|]. destruct Hs as [_ Hs]. exact Hs.
      - destruct rest'; [exact I|]. destruct Hs as [H _]. exact H. }
    destruct (is_null o).
    + assert (Hmid : increasing
                (x o :: xs match rest with
                           | [] => []
                           | m :: rest' =>
                               behind2 m ++ m :: onePass2 (Some m) rest'
                           end)).
      { destruct rest as [|m rest']; [exact I|].
        destruct (Htail m rest' eq_refl) as [Hom Hinc].
        unfold behind2, unless_zero. destruct (x m =? 0); simpl.
        - split; [lia|exact Hinc].
        - split; [lia|]. split; [lia|exact Hinc]. }
      unfold inFront2, unless_zero. destruct prev as [a|]; [|exact Hmid].
      destruct (x a =? 0); simpl.
      * split; [lia|exact Hmid].
      * split; [lia|]. split; [lia|exact Hmid].
    + assert (Hmid : increasing (x o :: xs (onePass2 (Some o) rest))).
      { apply (IH rest (Some o)); [lia| |].
        - destruct rest; [exact I|]. destruct Hs as [_ Hs]. exact Hs.
        - destruct rest; [exact I|]. destruct Hs as [H _]. exact H. }
      destruct prev as [a|]; [|exact Hmid]. simpl. split; [lia|exact Hmid].
Qed.

Lemma fixSeries2_onePass (series : Series) :
  Single2.fixSeries series =
    mkSeries (id series) (onePass2 None (data series)).
Proof.
  unfold Single2.fixSeries, setData. f_equal.
  exact (fold2_onePass (length (data series)) (data series) [] (le_n _)).
Qed.

End OnePass2.

(** X21: the second single-series revision, for every series, builds
    exactly the array of one pass from the left ([onePass2]): every null
    point that is not the right neighbour of a recorded null point gets a
    null fix point at its left neighbour's [x + 1] in front and one at its
    right neighbour's [x - 1] behind, whatever the neighbours' values; no
    point is put next to a neighbour at [x = 0]; all other points stay as
    they are. *)
Theorem X21_single2_is_one_pass (series : Series) :
  Single2.fixSeries series =
    mkSeries (id series) (onePass2 None (data series)).
Proof.
  exact (fixSeries2_onePass series).
Qed.

Section Rounding2.

(** The bounds a fix records are [x] values of the array. *)
Lemma collectSingle2_safe (data : list Point) (n : nat) :
  Forall (safe 1) data ->
  forall (rest : list Point) (i : nat),
  (length rest <= n)%nat ->
  Forall fix_safe (Single2.collectFixes data i rest).
Proof.
  intros Hsafe. rewrite Forall_lookup in Hsafe.
  induction n as [|n IH]; intros rest i Hn.
  - destruct rest; [constructor|simpl in Hn; lia].
  - destruct rest as [|p rest']; [constructor|].
    simpl in Hn. simpl. destruct (is_null p); [|apply IH; lia].
    constructor.
    + split; simpl; intros m Hm.
      * destruct i as [|i]; [discriminate|]. simpl in Hm.
        destruct (data !! i) as [a|] eqn:Ea; [|discriminate].
        injection Hm as <-. specialize (Hsafe i a Ea).
        unfold safe in Hsafe. simpl. lia.
      * unfold Single2.getPostFix in Hm.
        destruct (data !! S i) as [a|] eqn:Ea; [|discriminate].
        injection Hm as <-. specialize (Hsafe (S i) a Ea).
        unfold safe in Hsafe. simpl. lia.
    + destruct (Single2.getPostFix data i) as [po|];
        [destruct rest' as [|q rest'']|]; apply IH; simpl in *; lia.
Qed.

Lemma applyFix2_exact (f : Single2.Fix) (d : list Point) :
  fix_safe f -> Single2.Float.applyFix f d = Single2.applyFix f d.
Proof.
  intros [Hpre Hpost]. unfold Single2.Float.applyFix, Single2.applyFix.
  destruct (Single2.xPost f) as [n|];
    [rewrite (double_exact (n - 1)) by (specialize (Hpost n eq_refl); lia)|];
    (destruct (Single2.xPre f) as [m|];
       [rewrite (double_exact (m + 1))
          by (specialize (Hpre m eq_refl); lia)|]);
    reflexivity.
Qed.

Lemma foldSingle2_exact (fixes : list Single2.Fix) :
  Forall fix_safe fixes ->
  forall d,
  fold_left (fun d f => Single2.Float.applyFix f d) fixes d =
  fold_left (fun d f => Single2.applyFix f d) fixes d.
Proof.
  induction 1 as [|f fixes Hf _ IH]; intros d; simpl; [reflexivity|].
  rewrite (applyFix2_exact f d Hf). apply IH.
Qed.

(** With every [x] of the series in the safe range, the revision with
    rounded sums is the one with exact sums. *)
Lemma fixSeries2_exact (series : Series) :
  Forall (safe 1) (data series) ->
  Single2.Float.fixSeries series = Single2.fixSeries series.
Proof.
  intros Hs. unfold Single2.Float.fixSeries, Single2.fixSeries. f_equal.
  apply foldSingle2_exact. apply Forall_rev.
  exact (collectSingle2_safe (data series) (length (data series)) Hs
           (data series) O (le_n _)).
Qed.

End Rounding2.

(** X22: if every [x] of the series keeps [x + 1] and [x - 1] within
    [2^53] and consecutive points are more than 1 apart in [x], the second
    single-series revision, with its sums rounded to doubles, returns a
    series whose [x] values are strictly increasing. *)
Theorem X22_single2_monotone (series : Series) :
  Forall (safe 1) (data series) ->
  spaced 1 (data series) ->
  increasing (xs (data (Single2.Float.fixSeries series))).
Proof.
  intros Hsafe Hs. rewrite (fixSeries2_exact series Hsafe).
  rewrite fixSeries2_onePass. simpl.
  exact (onePass2_increasing (length (data series)) (data series) None
           (le_n _) Hs I).
Qed.

Lemma X22_single2_monotone_witness :
  Forall (safe 1) (data run_series)
  /\ spaced 1 (data run_series)
  /\ increasing (xs (data (Single2.Float.fixSeries run_series))).
Proof.
  assert (H0 : Forall (safe 1) (data run_series))
    by (repeat constructor; unfold safe; simpl; lia).
  assert (H : spaced 1 (data run_series)) by (simpl; lia).
  split; [exact H0|]. split; [exact H|].
  exact (X22_single2_monotone run_series H0 H).
Defined.

(** ** Version 1.1.0: what a series' result depends on *)

(** X23: when the call returns, the array it leaves for a series depends
    only on that series' own points and on the set of positions at which
    some series of the input has a null point.  Two inputs with the same
    such positions give a series with the same points the same array,
    wherever it stands in the list and whatever the other series are. *)
Theorem X23_result_depends_on_gap_positions (delta : Z)
  (seriesA seriesB outA outB : list Series) (i j : nat) (sa sb : Series) :
  V110.fixSeries delta seriesA = Done outA ->
  V110.fixSeries delta seriesB = Done outB ->
  seriesA !! i = Some sa -> seriesB !! j = Some sb ->
  data sa = data sb ->
  (forall k, (exists t, In t seriesA /\ null_at (data t) k) <->
             (exists t, In t seriesB /\ null_at (data t) k)) ->
  exists sa' sb',
    outA !! i = Some sa' /\ outB !! j = Some sb' /\ data sa' = data sb'.
Proof.
  intros HA HB Hi Hj Hdata Hsame.
  pose proof (fixSeries_Done_inside delta seriesA outA HA) as HinA.
  pose proof (fixSeries_Done_inside delta seriesB outB HB) as HinB.
  assert (Hone : forall series out k s,
            V110.fixSeries delta series = Done out -> series !! k = Some s ->
            exists s', out !! k = Some s' /\
              data s' = expand delta (member (snd (V110.scan series)))
                          (map tagGap (data s))).
  { intros series out k s Hout Hs.
    destruct (fixSeries_scan delta series) as [E _]. rewrite E in Hout.
    apply fixAll_Done in Hout.
    assert (Hsc : scannedFrom O series !! k = Some (scanned k s))
      by (rewrite scannedFrom_lookup, Hs; reflexivity).
    destruct (Forall2_lookup_l _ _ _ _ _ Hout Hsc)
      as (s' & Hs' & d & Hfix & ->).
    exists (setData (scanned k s) d). split; [exact Hs'|]. simpl.
    simpl in Hfix.
    rewrite <- (expand_start delta (map tagGap (data s))) in Hfix.
    apply fixGaps_Done in Hfix as [-> _];
      [|apply tagged_tagGap|exact (proj1 (scan_gaps series))
       |apply below_none].
    apply expandFrom_ext. intros m _. apply orb_false_r. }
  destruct (Hone seriesA outA i sa HA Hi) as (sa' & Ha' & Ea).
  destruct (Hone seriesB outB j sb HB Hj) as (sb' & Hb' & Eb).
  exists sa', sb'. split; [exact Ha'|]. split; [exact Hb'|].
  rewrite Ea, Eb, Hdata. apply expandFrom_ext. intros k _.
  apply eq_true_iff_eq.
  rewrite (proj2 (scan_gaps seriesA) k), (proj2 (scan_gaps seriesB) k).
  apply Hsame.
Qed.

Lemma s1_no_null (k : nat) : ~ null_at (data s1) k.
Proof.
  intros (p & Hp & Hn).
  do 5 (destruct k as [|k]; [simpl in Hp; injection Hp as <-;
                             discriminate Hn|]).
  discriminate Hp.
Defined.

Lemma X23_result_depends_witness :
  exists sa' sb',
    store_of (V110.fixSeries 1 [s1; s2]) !! 0%nat = Some sa'
    /\ store_of (V110.fixSeries 1 [s2; s2; s1]) !! 2%nat = Some sb'
    /\ data sa' = data sb'.
Proof.
  apply (X23_result_depends_on_gap_positions 1 [s1; s2] [s2; s2; s1]
           _ _ 0 2 s1 s1); try reflexivity.
  intros k. split; intros (t & Ht & Hn).
  - destruct Ht as [<-|[<-|[]]].
    + exfalso. exact (s1_no_null k Hn).
    + exists s2. split; [left; reflexivity|exact Hn].
  - destruct Ht as [<-|[<-|[<-|[]]]].
    + exists s2. split; [right; left; reflexivity|exact Hn].
    + exists s2. split; [right; left; reflexivity|exact Hn].
    + exfalso. exact (s1_no_null k Hn).
Defined.

(** ** Version 1.0.0: a series next to the one with the gap *)

(** X24: version 1.0.0 on two series, the first without a null point, the
    second with one isolated null point [g] between [pb] and [qb] (neither
    at [x = 0]), the two ids being different.  Both series get a point at
    [pb.x + 1] in front of position [k] of the gap and one at [qb.x - 1]
    behind it, the positions being taken from the second series.  In the
    second series the two points are null; in the first each carries the
    value of the neighbour [pa] or [qa] at that side if that neighbour has
    the same [x] as the one of the second series, and is null otherwise. *)
Theorem X24_v100_other_series_gets_values (ida idb : option Id)
  (preA postA preB postB : list Point) (pa oa qa pb g qb : Point)
  (va wa : Z) :
  let A := mkSeries ida (preA ++ pa :: oa :: qa :: postA) in
  let B := mkSeries idb (preB ++ pb :: g :: qb :: postB) in
  let sidA := match ida with Some v => v | None => IdNum 0 end in
  let sidB := match idb with Some v => v | None => IdNum 1 end in
  Forall (fun a => is_null a = false) (data A) ->
  Forall (fun a => is_null a = false) preB ->
  is_null pb = false -> is_null g = true ->
  Forall (fun a => is_null a = false) postB ->
  length preA = length preB ->
  y pa = Some va -> y qa = Some wa ->
  x pb <> 0 -> x qb <> 0 ->
  V100.id_eqb sidB sidA = false ->
  V100.fixSeries [A; B] =
    [mkSeries (Some sidA)
       (preA ++ pa ::
        mkPoint (x pb + 1) (if x pa =? x pb then Some va else None)
          (Some "gap") (Some (mkMarker false false)) ::
        oa ::
        mkPoint (x qb - 1) (if x qa =? x qb then Some wa else None)
          (Some "gap") (Some (mkMarker false false)) ::
        qa :: postA);
     mkSeries (Some sidB)
       (preB ++ pb ::
        mkPoint (x pb + 1) None (Some "gap")
          (Some (mkMarker false false)) ::
        g ::
        mkPoint (x qb - 1) None (Some "gap")
          (Some (mkMarker false false)) ::
        qb :: postB)].
Proof.
  intros A B sA sB HA HpreB Hpb Hg HpostB Hlen Hva Hwa Hxp Hxq Hids.
  subst sA sB.
  change (match ida with Some v => v | None => IdNum 0 end)
    with (V100.assignId 0 A) in *.
  change (match idb with Some v => v | None => IdNum 1 end)
    with (V100.assignId 1 B) in *.
  set (dA := preA ++ pa :: oa :: qa :: postA) in *.
  set (dB := preB ++ pb :: g :: qb :: postB) in *.
  set (sidA := V100.assignId 0 A) in *.
  set (sidB := V100.assignId 1 B) in *.
  assert (HfixB : V100.collectFixes dB sidB O dB =
            [V100.mkFix sidB (S (length preB)) (x g)
               (Some (x pb)) (Some (x qb)) None]).
  { assert (Ed : dB = (preB ++ [pb]) ++ g :: qb :: postB)
      by (unfold dB; rewrite <- app_assoc; reflexivity).
    rewrite Ed at 2.
    rewrite collect100_skip
      by (apply Forall_app; split; [exact HpreB|repeat constructor; exact Hpb]).
    rewrite length_app. simpl.
    replace (length preB + 1)%nat with (S (length preB)) by lia.
    rewrite Hg. unfold V100.getPrev, V100.getNext.
    replace (dB !! length preB) with (Some pb)
      by (symmetry; apply lookup_at; reflexivity).
    replace (dB !! S (S (length preB))) with (Some qb).
    2:{ symmetry. unfold dB.
        replace (preB ++ pb :: g :: qb :: postB)
          with ((preB ++ [pb; g]) ++ qb :: postB)
          by (rewrite <- app_assoc; reflexivity).
        apply lookup_at. rewrite length_app. simpl. lia. }
    simpl. rewrite (collect100_gap_free _ _ _ HpostB). reflexivity. }
  assert (HfixA : V100.collectFixes dA sidA O dA = [])
    by (apply collect100_gap_free; exact HA).
  unfold V100.fixSeries. simpl.
  fold dA dB A B sidA sidB. rewrite HfixA, HfixB. simpl.
  unfold V100.fixData. simpl. unfold setData. simpl.
  apply Z.eqb_neq in Hxp, Hxq.
  assert (S2 : forall (pre post : list Point) (p o q f : Point),
            splice (pre ++ p :: o :: q :: post) (S (S (length pre))) f =
            pre ++ p :: o :: f :: q :: post).
  { intros pre post p o q f.
    replace (pre ++ p :: o :: q :: post)
      with ((pre ++ [p; o]) ++ q :: post)
      by (rewrite <- app_assoc; reflexivity).
    rewrite splice_at by (rewrite length_app; simpl; lia).
    rewrite <- app_assoc. reflexivity. }
  assert (S1 : forall (pre R : list Point) (p f : Point),
            splice (pre ++ p :: R) (S (length pre)) f = pre ++ p :: f :: R).
  { intros pre R p f.
    replace (pre ++ p :: R) with ((pre ++ [p]) ++ R)
      by (rewrite <- app_assoc; reflexivity).
    rewrite splice_at by (rewrite length_app; simpl; lia).
    rewrite <- app_assoc. reflexivity. }
  f_equal; [|f_equal].
  - f_equal. unfold V100.applyFix. simpl. rewrite Hids, Hxp, Hxq. simpl.
    rewrite <- Hlen.
    replace (dA !! length preA) with (Some pa)
      by (symmetry; apply lookup_at; reflexivity).
    replace (dA !! S (S (length preA))) with (Some qa).
    2:{ symmetry. unfold dA.
        replace (preA ++ pa :: oa :: qa :: postA)
          with ((preA ++ [pa; oa]) ++ qa :: postA)
          by (rewrite <- app_assoc; reflexivity).
        apply lookup_at. rewrite length_app. simpl. lia. }
    unfold V100.serieValue. rewrite Hva, Hwa.
    unfold dA. rewrite S2, S1. reflexivity.
  - f_equal. unfold V100.applyFix. simpl. rewrite id_eqb_refl, Hxp, Hxq.
    simpl. unfold dB. rewrite S2, S1. reflexivity.
Qed.

Lemma X24_v100_other_series_witness :
  V100.fixSeries [s1; s2] =
    [mkSeries (Some (IdNum 0))
       ([pt 0 (Some 1)] ++ pt 1 (Some 1) ::
        mkPoint (1 + 1) (if 1 =? 1 then Some 1 else None)
          (Some "gap") (Some (mkMarker false false)) ::
        pt 2 (Some 1) ::
        mkPoint (3 - 1) (if 3 =? 3 then Some 1 else None)
          (Some "gap") (Some (mkMarker false false)) ::
        pt 3 (Some 1) :: [pt 4 (Some 1)]);
     mkSeries (Some (IdNum 1))
       ([pt 0 (Some 2)] ++ pt 1 (Some 2) ::
        mkPoint (1 + 1) None (Some "gap")
          (Some (mkMarker false false)) ::
        pt 2 None ::
        mkPoint (3 - 1) None (Some "gap")
          (Some (mkMarker false false)) ::
        pt 3 (Some 2) :: [pt 4 (Some 2)])].
Proof.
  apply (X24_v100_other_series_gets_values None None
           [pt 0 (Some 1)] [pt 4 (Some 1)] [pt 0 (Some 2)] [pt 4 (Some 2)]
           (pt 1 (Some 1)) (pt 2 (Some 1)) (pt 3 (Some 1))
           (pt 1 (Some 2)) (pt 2 None) (pt 3 (Some 2)) 1 1);
    first [reflexivity|discriminate|repeat constructor].
Defined.
